(** * Verification of the state-chain word puzzle (puzzles/states/state-chain-words.py)

    The development embeds the Python program shallowly: the [State] class
    is a record, the module-level dictionary [states_and_neighbors] is an
    insertion-ordered association list, the mutable lists and sets that
    [traverse_neighbor_chain] shares and copies live in an explicit object
    store, and a raised exception is a [Raise] result. *)

From Stdlib Require Import ZArith Ascii String List Permutation Sorted DecimalString.
From stdpp Require Import base option list gmap strings sorting.

Open Scope string_scope.
Open Scope list_scope.
Open Scope Z_scope.

(** ** The [State] class *)

Record State := mkState {
  name : string;
  abbr : string;
  neighbors : list string
}.

(** [State.__init__]: a missing neighbor list ([None]) becomes [list()]. *)
Definition State_init (name abbr : string) (neighbors : option (list string)) : State :=
  mkState name abbr (match neighbors with None => [] | Some l => l end).

Definition get_name (s : State) : string := name s.
Definition get_abbr (s : State) : string := abbr s.
Definition get_neighbors (s : State) : list string := neighbors s.

(** [State.__eq__]: same class and same name; [State.__hash__] hashes the
    name, so a Python [set] of states is determined by the names it holds. *)
Definition State_eq (s other : State) : bool := bool_decide (name s = name other).

(** ** The module-level table

    A Python [dict] keeps insertion order: [Table] is an association list and
    [values] iterates in that order. *)
Definition Table := list (string * State).

Definition values (d : Table) : list State := map snd d.
Definition keys (d : Table) : list string := map fst d.

(** [d[key]]: the value stored under [key], or no value ([KeyError]). *)
Fixpoint dict_get (d : Table) (key : string) : option State :=
  match d with
  | [] => None
  | (k, v) :: d' => if bool_decide (k = key) then Some v else dict_get d' key
  end.

Definition states_and_neighbors : Table := [
  ("Alabama",         State_init "Alabama"         "AL" (Some ["Mississippi"; "Tennessee"; "Florida"; "Georgia"]));
  ("Alaska",          State_init "Alaska"          "AK" (None));
  ("Arizona",         State_init "Arizona"         "AZ" (Some ["Nevada"; "New Mexico"; "Utah"; "California"; "Colorado"]));
  ("Arkansas",        State_init "Arkansas"        "AR" (Some ["Oklahoma"; "Tennessee"; "Texas"; "Louisiana"; "Mississippi"; "Missouri"]));
  ("California",      State_init "California"      "CA" (Some ["Oregon"; "Arizona"; "Nevada"]));
  ("Colorado",        State_init "Colorado"        "CO" (Some ["New Mexico"; "Oklahoma"; "Utah"; "Wyoming"; "Arizona"; "Kansas"; "Nebraska"]));
  ("Connecticut",     State_init "Connecticut"     "CT" (Some ["New York"; "Rhode Island"; "Massachusetts"]));
  ("Delaware",        State_init "Delaware"        "DE" (Some ["New Jersey"; "Pennsylvania"; "Maryland"]));
  ("Florida",         State_init "Florida"         "FL" (Some ["Georgia"; "Alabama"]));
  ("Georgia",         State_init "Georgia"         "GA" (Some ["North Carolina"; "South Carolina"; "Tennessee"; "Alabama"; "Florida"]));
  ("Hawaii",          State_init "Hawaii"          "HI" (None));
  ("Idaho",           State_init "Idaho"           "ID" (Some ["Utah"; "Washington"; "Wyoming"; "Montana"; "Nevada"; "Oregon"]));
  ("Illinois",        State_init "Illinois"        "IL" (Some ["Kentucky"; "Missouri"; "Wisconsin"; "Indiana"; "Iowa"; "Michigan"]));
  ("Indiana",         State_init "Indiana"         "IN" (Some ["Michigan"; "Ohio"; "Illinois"; "Kentucky"]));
  ("Iowa",            State_init "Iowa"            "IA" (Some ["Nebraska"; "South Dakota"; "Wisconsin"; "Illinois"; "Minnesota"; "Missouri"]));
  ("Kansas",          State_init "Kansas"          "KS" (Some ["Nebraska"; "Oklahoma"; "Colorado"; "Missouri"]));
  ("Kentucky",        State_init "Kentucky"        "KY" (Some ["Tennessee"; "Virginia"; "West Virginia"; "Illinois"; "Indiana"; "Missouri"; "Ohio"]));
  ("Louisiana",       State_init "Louisiana"       "LA" (Some ["Texas"; "Arkansas"; "Mississippi"]));
  ("Maine",           State_init "Maine"           "ME" (Some ["New Hampshire"]));
  ("Maryland",        State_init "Maryland"        "MD" (Some ["Virginia"; "West Virginia"; "Delaware"; "Pennsylvania"]));
  ("Massachusetts",   State_init "Massachusetts"   "MA" (Some ["New York"; "Rhode Island"; "Vermont"; "Connecticut"; "New Hampshire"]));
  ("Michigan",        State_init "Michigan"        "MI" (Some ["Ohio"; "Wisconsin"; "Illinois"; "Indiana"]));
  ("Minnesota",       State_init "Minnesota"       "MN" (Some ["North Dakota"; "South Dakota"; "Wisconsin"; "Iowa"]));
  ("Mississippi",     State_init "Mississippi"     "MS" (Some ["Louisiana"; "Tennessee"; "Alabama"; "Arkansas"]));
  ("Missouri",        State_init "Missouri"        "MO" (Some ["Nebraska"; "Oklahoma"; "Tennessee"; "Arkansas"; "Illinois"; "Iowa"; "Kansas"; "Kentucky"]));
  ("Montana",         State_init "Montana"         "MT" (Some ["South Dakota"; "Wyoming"; "Idaho"; "North Dakota"]));
  ("Nebraska",        State_init "Nebraska"        "NE" (Some ["Missouri"; "South Dakota"; "Wyoming"; "Colorado"; "Iowa"; "Kansas"]));
  ("Nevada",          State_init "Nevada"          "NV" (Some ["Idaho"; "Oregon"; "Utah"; "Arizona"; "California"]));
  ("New Hampshire",   State_init "New Hampshire"   "NH" (Some ["Vermont"; "Maine"; "Massachusetts"]));
  ("New Jersey",      State_init "New Jersey"      "NJ" (Some ["Pennsylvania"; "Delaware"; "New York"]));
  ("New Mexico",      State_init "New Mexico"      "NM" (Some ["Oklahoma"; "Texas"; "Utah"; "Arizona"; "Colorado"]));
  ("New York",        State_init "New York"        "NY" (Some ["Pennsylvania"; "Vermont"; "Connecticut"; "Massachusetts"; "New Jersey"]));
  ("North Carolina",  State_init "North Carolina"  "NC" (Some ["Tennessee"; "Virginia"; "Georgia"; "South Carolina"]));
  ("North Dakota",    State_init "North Dakota"    "ND" (Some ["South Dakota"; "Minnesota"; "Montana"]));
  ("Ohio",            State_init "Ohio"            "OH" (Some ["Michigan"; "Pennsylvania"; "West Virginia"; "Indiana"; "Kentucky"]));
  ("Oklahoma",        State_init "Oklahoma"        "OK" (Some ["Missouri"; "New Mexico"; "Texas"; "Arkansas"; "Colorado"; "Kansas"]));
  ("Oregon",          State_init "Oregon"          "OR" (Some ["Nevada"; "Washington"; "California"; "Idaho"]));
  ("Pennsylvania",    State_init "Pennsylvania"    "PA" (Some ["New York"; "Ohio"; "West Virginia"; "Delaware"; "Maryland"; "New Jersey"]));
  ("Rhode Island",    State_init "Rhode Island"    "RI" (Some ["Massachusetts"; "Connecticut"]));
  ("South Carolina",  State_init "South Carolina"  "SC" (Some ["North Carolina"; "Georgia"]));
  ("South Dakota",    State_init "South Dakota"    "SD" (Some ["Nebraska"; "North Dakota"; "Wyoming"; "Iowa"; "Minnesota"; "Montana"]));
  ("Tennessee",       State_init "Tennessee"       "TN" (Some ["Mississippi"; "Missouri"; "North Carolina"; "Virginia"; "Alabama"; "Arkansas"; "Georgia"; "Kentucky"]));
  ("Texas",           State_init "Texas"           "TX" (Some ["New Mexico"; "Oklahoma"; "Arkansas"; "Louisiana"]));
  ("Utah",            State_init "Utah"            "UT" (Some ["Nevada"; "New Mexico"; "Wyoming"; "Arizona"; "Colorado"; "Idaho"]));
  ("Vermont",         State_init "Vermont"         "VT" (Some ["New Hampshire"; "New York"; "Massachusetts"]));
  ("Virginia",        State_init "Virginia"        "VA" (Some ["North Carolina"; "Tennessee"; "West Virginia"; "Kentucky"; "Maryland"]));
  ("Washington",      State_init "Washington"      "WA" (Some ["Oregon"; "Idaho"]));
  ("West Virginia",   State_init "West Virginia"   "WV" (Some ["Pennsylvania"; "Virginia"; "Kentucky"; "Maryland"; "Ohio"]));
  ("Wisconsin",       State_init "Wisconsin"       "WI" (Some ["Michigan"; "Minnesota"; "Illinois"; "Iowa"]));
  ("Wyoming",         State_init "Wyoming"         "WY" (Some ["Nebraska"; "South Dakota"; "Utah"; "Colorado"; "Idaho"; "Montana"]))
].

(** ** Exceptions and results *)

Inductive Exception :=
| KeyError (key : string)
| RecursionError
| ValueError
| FileNotFoundError (path : string).

Inductive Result (A : Type) :=
| Ok (a : A)
| Raise (e : Exception).
Arguments Ok {A} a.
Arguments Raise {A} e.

(** ** The object store

    Python lists and sets are mutable objects reached through references;
    two names may denote the same object.  The store keeps one typed heap
    per kind of object the enumerator allocates; a reference is the index
    of the object in its heap, and allocation appends. *)

Abbreviation ref := nat.

Record Store := mkStore {
  chain_objs : list (list State);   (* lists of states: [chain], [new_chain], [local_chain] *)
  seen_objs : list (gset string);   (* sets of states: [states_seen], [local_states_seen] *)
  chains_objs : list (list ref)     (* lists of references to chain objects: [chains] *)
}.

Definition empty_store : Store := mkStore [] [] [].

Definition M (A : Type) : Type := Store → Result (A * Store).

Definition ret {A} (a : A) : M A := λ σ, Ok (a, σ).

Definition bind {A B} (m : M A) (k : A → M B) : M B :=
  λ σ, match m σ with
       | Ok (a, σ') => k a σ'
       | Raise e => Raise e
       end.

Definition raise {A} (e : Exception) : M A := λ _, Raise e.

Global Instance M_ret : MRet M := @ret.
Global Instance M_bind : MBind M := λ A B k m, bind m k.

(** [for x in l: body(x)] *)
Fixpoint for_each {A} (l : list A) (body : A → M unit) : M unit :=
  match l with
  | [] => ret tt
  | x :: l' => body x ;; for_each l' body
  end.

(** [[]] and [set()] allocate fresh objects. *)
Definition new_chain_obj : M ref :=
  λ σ, Ok (length (chain_objs σ),
           mkStore (chain_objs σ ++ [[]]) (seen_objs σ) (chains_objs σ)).

Definition new_seen_obj : M ref :=
  λ σ, Ok (length (seen_objs σ),
           mkStore (chain_objs σ) (seen_objs σ ++ [∅]) (chains_objs σ)).

Definition new_chains_obj : M ref :=
  λ σ, Ok (length (chains_objs σ),
           mkStore (chain_objs σ) (seen_objs σ) (chains_objs σ ++ [[]])).

(** [chain.append(state)] mutates the object in place. *)
Definition chain_append (chain : ref) (state : State) : M unit :=
  λ σ, Ok (tt, mkStore (alter (λ l, l ++ [state]) chain (chain_objs σ))
                       (seen_objs σ) (chains_objs σ)).

(** [chains.append(chain)] stores the reference, not a copy. *)
Definition chains_append (chains chain : ref) : M unit :=
  λ σ, Ok (tt, mkStore (chain_objs σ) (seen_objs σ)
                       (alter (λ l, l ++ [chain]) chains (chains_objs σ))).

(** [states_seen.add(state)] *)
Definition seen_add (states_seen : ref) (state : State) : M unit :=
  λ σ, Ok (tt, mkStore (chain_objs σ)
                       (alter (λ s, {[name state]} ∪ s) states_seen (seen_objs σ))
                       (chains_objs σ)).

(** [state in states_seen] *)
Definition seen_contains (states_seen : ref) (state : State) : M bool :=
  λ σ, Ok (bool_decide (name state ∈ default ∅ (seen_objs σ !! states_seen)), σ).

(** [states_seen.copy()] and [chain.copy()] allocate a new object with the
    same contents. *)
Definition seen_copy (states_seen : ref) : M ref :=
  λ σ, Ok (length (seen_objs σ),
           mkStore (chain_objs σ)
                   (seen_objs σ ++ [default ∅ (seen_objs σ !! states_seen)])
                   (chains_objs σ)).

Definition chain_copy (chain : ref) : M ref :=
  λ σ, Ok (length (chain_objs σ),
           mkStore (chain_objs σ ++ [default [] (chain_objs σ !! chain)])
                   (seen_objs σ) (chains_objs σ)).

(** [states_and_neighbors[neighbor_name]] *)
Definition lookup_state (graph : Table) (neighbor_name : string) : M State :=
  match dict_get graph neighbor_name with
  | Some s => ret s
  | None => raise (KeyError neighbor_name)
  end.

(** The chains a [chains] object denotes: every stored reference followed
    to the chain object it points to. *)
Definition deref (σ : Store) (chain : ref) : list State :=
  default [] (chain_objs σ !! chain).

Definition read_chains (σ : Store) (chains : ref) : list (list State) :=
  deref σ <$> default [] (chains_objs σ !! chains).

(** ** The enumerator *)

Section Enumerator.

Variable graph : Table.

(** [traverse_neighbor_chain]; [limit] is the number of nested calls the
    interpreter still allows (running out raises [RecursionError]). *)
Fixpoint traverse_neighbor_chain (limit : nat) (state : State) (states_seen chains chain : ref)
    (max_depth : Z) : M unit :=
  match limit with
  | O => raise RecursionError
  | S limit' =>
    chain_append chain state ;;
    if max_depth =? 0 then
      chains_append chains chain
    else
      seen_add states_seen state ;;
      for_each (get_neighbors state) (λ neighbor_name,
        neighbor ← lookup_state graph neighbor_name;
        seen ← seen_contains states_seen neighbor;
        if (seen : bool) then ret tt
        else
          local_states_seen ← seen_copy states_seen;
          local_chain ← chain_copy chain;
          traverse_neighbor_chain limit' neighbor local_states_seen chains local_chain
                                  (max_depth - 1))
  end.

Definition build_neighbor_chains (limit : nat) (chain_length : Z) : M ref :=
  chains ← new_chains_obj;
  for_each (values graph) (λ state,
    new_chain ← new_chain_obj;
    states_seen ← new_seen_obj;
    traverse_neighbor_chain limit state states_seen chains new_chain (chain_length - 1)) ;;
  ret chains.

End Enumerator.

Definition run_chains (m : M ref) (σ : Store) : Result (list (list State)) :=
  match m σ with
  | Ok (chains, σ') => Ok (read_chains σ' chains)
  | Raise e => Raise e
  end.


(** ** Reference enumeration

    A pure enumeration written from the specification: every call carries
    its own chain, its visited set holds exactly the states on that chain,
    and [explore] fixes the order in which the sibling branches (the
    neighbors of the current tail) are taken. *)

Fixpoint collect {A B} (l : list A) (f : A → Result (list B)) : Result (list B) :=
  match l with
  | [] => Ok []
  | x :: l' =>
    match f x with
    | Raise e => Raise e
    | Ok ys =>
      match collect l' f with
      | Raise e => Raise e
      | Ok zs => Ok (ys ++ zs)
      end
    end
  end.

Definition visited (chain : list State) : gset string := list_to_set (name <$> chain).

Section Reference.

Variable graph : Table.
Variable explore : list string → list string.

Fixpoint chains_from (limit : nat) (state : State) (chain : list State) (max_depth : Z)
    : Result (list (list State)) :=
  match limit with
  | O => Raise RecursionError
  | S limit' =>
    let chain' := chain ++ [state] in
    if max_depth =? 0 then Ok [chain']
    else
      collect (explore (get_neighbors state)) (λ neighbor_name,
        match dict_get graph neighbor_name with
        | None => Raise (KeyError neighbor_name)
        | Some neighbor =>
          if bool_decide (name neighbor ∈ visited chain') then Ok []
          else chains_from limit' neighbor chain' (max_depth - 1)
        end)
  end.

Definition reference_chains (limit : nat) (chain_length : Z) : Result (list (list State)) :=
  collect (values graph) (λ state, chains_from limit state [] (chain_length - 1)).

End Reference.

(** The source explores the neighbors in the order of the neighbor list. *)
Definition source_order (l : list string) : list string := l.

(** A three-state line A - B - C, used to exercise the enumerator on a
    graph other than the table of the states. *)
Definition line_graph : Table := [
  ("A", State_init "A" "AA" (Some ["B"]));
  ("B", State_init "B" "BB" (Some ["A"; "C"]));
  ("C", State_init "C" "CC" (Some ["B"]))
].

(** ** Chains as paths of the graph *)

(** Consecutive states are linked: the successor's name is listed among the
    predecessor's neighbors. *)
Fixpoint linked (c : list State) : Prop :=
  match c with
  | s :: c' => match c' with
               | t :: _ => name t ∈ get_neighbors s ∧ linked c'
               | [] => True
               end
  | [] => True
  end.

(** A simple path of the graph: its states are objects of the table, no
    name repeats, and consecutive states are linked. *)
Definition simple_path (graph : Table) (c : list State) : Prop :=
  Forall (λ s, s ∈ values graph) c ∧ NoDup (name <$> c) ∧ linked c.

(** Well-formedness of a table: every key is the name of its value and no
    key is repeated; every neighbor name is a key. *)
Definition well_keyed (graph : Table) : Prop :=
  NoDup (keys graph) ∧ Forall (λ kv, name (snd kv) = fst kv) graph.

Definition closed (graph : Table) : Prop :=
  Forall (λ s, Forall (λ n, is_Some (dict_get graph n)) (get_neighbors s)) (values graph).

Definition symmetric (graph : Table) : Prop :=
  Forall (λ a, Forall (λ b, name b ∈ get_neighbors a ↔ name a ∈ get_neighbors b) (values graph))
         (values graph).

Global Instance linked_dec c : Decision (linked c).
Proof.
  induction c as [|s [|t c'] IH]; simpl; [left; exact I | left; exact I |].
  destruct IH; [| right; tauto].
  destruct (decide (name t ∈ get_neighbors s)); [left | right]; tauto.
Defined.

(** ** Strings

    Text is modelled as strings of 8-bit characters.  [strip], [upper] and
    [int] act on the ASCII range as the methods of Python's [str] do;
    characters above 127 are outside the model (they are kept unchanged,
    are no letters, no digits and no whitespace). *)

Definition ord (c : ascii) : N := N_of_ascii c.

Definition is_upper (c : ascii) : bool := ((65 <=? ord c) && (ord c <=? 90))%N.
Definition is_lower (c : ascii) : bool := ((97 <=? ord c) && (ord c <=? 122))%N.
Definition is_digit (c : ascii) : bool := ((48 <=? ord c) && (ord c <=? 57))%N.

(** Whitespace of [str.strip()]: tab, newline, vertical tab, form feed,
    carriage return, the four separators 28-31 and the space. *)
Definition is_space (c : ascii) : bool :=
  ((9 <=? ord c) && (ord c <=? 13) || (28 <=? ord c) && (ord c <=? 32))%N.

(** [[char for char in string]] and [''.join(letters)] *)
Definition chars (s : string) : list ascii := list_ascii_of_string s.
Definition join (letters : list ascii) : string := string_of_list_ascii letters.

Definition len (s : string) : Z := Z.of_nat (String.length s).

Definition char_upper (c : ascii) : ascii :=
  if is_lower c then ascii_of_N (ord c - 32) else c.

Definition upper (s : string) : string := join (map char_upper (chars s)).

Fixpoint lstrip (l : list ascii) : list ascii :=
  match l with
  | c :: l' => if is_space c then lstrip l' else l
  | [] => []
  end.

Definition strip (s : string) : string :=
  join (rev (lstrip (rev (lstrip (chars s))))).

(** Characters compare by code point. *)
Definition char_le (a b : ascii) : Prop := (ord a ≤ ord b)%N.

Global Instance char_le_dec a b : Decision (char_le a b) := decide (ord a ≤ ord b)%N.

(** [letters.sort()] *)
Definition sort (letters : list ascii) : list ascii := merge_sort char_le letters.

(** [int(s)] for a decimal literal: surrounding whitespace, an optional
    sign, digits with single underscores between them; anything else is a
    [ValueError] ([None]). *)
Fixpoint int_digits (acc : Z) (after_digit : bool) (l : list ascii) : option Z :=
  match l with
  | [] => if after_digit then Some acc else None
  | c :: l' =>
    if is_digit c then int_digits (10 * acc + Z.of_N (ord c - 48)) true l'
    else if bool_decide (c = "_"%char) && after_digit then
      match l' with
      | [] => None
      | _ => int_digits acc false l'
      end
    else None
  end.

Definition int (s : string) : option Z :=
  match chars (strip s) with
  | "-"%char :: l => Z.opp <$> int_digits 0 false l
  | "+"%char :: l => int_digits 0 false l
  | l => int_digits 0 false l
  end.

(** ** The anagram index *)

(** [generate_key]: sort the characters, join them, then upper-case. *)
Definition generate_key (text : string) : string :=
  let letters := chars text in
  let letters := sort letters in
  let key := upper (join letters) in
  key.

(** [pattern.match(word)] for the pattern ["^[A-Z]{%d}$" % word_length].
    For a non-negative count the pattern matches that many letters A-Z up
    to the end of the string or up to a final newline.  A negative count
    is no repetition at all: the braces are literal text after one letter. *)
Definition pattern_match (word_length : Z) (word : string) : bool :=
  let at_end (l : list ascii) := bool_decide (l = []) || bool_decide (l = ["010"%char]) in
  if 0 <=? word_length then
    let n := Z.to_nat word_length in
    forallb is_upper (take n (chars word))
    && bool_decide (length (take n (chars word)) = n)
    && at_end (drop n (chars word))
  else
    match chars word with
    | c :: l =>
      let literal := chars ("{" +:+ NilZero.string_of_int (Z.to_int word_length) +:+ "}") in
      is_upper c
      && bool_decide (take (length literal) l = literal)
      && at_end (drop (length literal) l)
    | [] => false
    end.

(** One iteration of the loop over the lines of the word file. *)
Definition index_line (word_length : Z) (anagrams : gmap string (list string))
    (line : string) : gmap string (list string) :=
  let word := upper (strip line) in
  if negb (len word =? word_length) then anagrams
  else if pattern_match word_length word then
    let key := generate_key word in
    match anagrams !! key with
    | Some words => <[key := words ++ [word]]> anagrams
    | None => <[key := [word]]> anagrams
    end
  else anagrams.

Definition build_index (word_length : Z) (word_file : list string)
    : gmap string (list string) :=
  fold_left (index_line word_length) word_file ∅.

(** The lookup of the main loop: [anagrams[key]] when [key in anagrams]. *)
Definition lookup_words (anagrams : gmap string (list string)) (query : string)
    : list string :=
  default [] (anagrams !! generate_key query).

(** ** Reporting *)

(** [print(", ".join(chain_abbrs), ":", ", ".join(words))] *)
Definition report_line (chain_abbrs words : list string) : string :=
  String.concat ", " chain_abbrs +:+ " : " +:+ String.concat ", " words.

(** One iteration of the loop over the chains: the lines printed so far and
    [total_found_words].  The per-chain set [found_words] is written but
    never read, and is left out. *)
Definition report_chain (anagrams : gmap string (list string))
    (acc : list string * gset string) (chain : list State) : list string * gset string :=
  let chain_abbrs := map get_abbr chain in
  let chain_string := String.concat "" chain_abbrs in
  let key := generate_key chain_string in
  match anagrams !! key with
  | Some words =>
    (fst acc ++ [report_line chain_abbrs words],
     fold_left (λ total_found_words word, {[word]} ∪ total_found_words) words (snd acc))
  | None => acc
  end.

Definition report_chains (anagrams : gmap string (list string))
    (chains : list (list State)) : list string * gset string :=
  fold_left (report_chain anagrams) chains ([], ∅).

(** The words of the final listing.  Python leaves the iteration order of
    a set unspecified; the order of [elements] stands for it, and no
    property below depends on it. *)
Definition all_words (total_found_words : gset string) : list string :=
  elements total_found_words.

Definition summary (total_found_words : gset string) : list string :=
  if (0 <? size total_found_words)%nat then
    [""; "All words:"] ++ map (λ word, "    " +:+ word) (all_words total_found_words)
  else ["No words found."].

(** ** Main routine *)

(** The command line: [sys.argv[1]] is converted with [int], whose
    [ValueError] is not caught; [sys.argv[2]] names the word file. *)
Definition parse_args (argv : list string) : Result (Z * string) :=
  match
    match argv !! 1%nat with
    | Some arg => match int arg with Some n => Ok n | None => Raise ValueError end
    | None => Ok 4
    end
  with
  | Raise e => Raise e
  | Ok chain_length => Ok (chain_length, default "/usr/share/dict/words" (argv !! 2%nat))
  end.

(** [main argv files limit]: [files] maps a path to the lines of the file,
    if it can be opened; the result is the printed lines or the uncaught
    exception. *)
Definition main (argv : list string) (files : string → option (list string)) (limit : nat)
    : Result (list string) :=
  match parse_args argv with
  | Raise e => Raise e
  | Ok (chain_length, word_file_name) =>
    match run_chains (build_neighbor_chains states_and_neighbors limit chain_length)
                     empty_store with
    | Raise e => Raise e
    | Ok chains =>
      match files word_file_name with
      | None => Raise (FileNotFoundError word_file_name)
      | Some word_file =>
        let word_length := chain_length * 2 in
        let anagrams := build_index word_length word_file in
        let '(printed, total_found_words) := report_chains anagrams chains in
        Ok (printed ++ summary total_found_words)
      end
    end
  end.

(** ** Specification-level notions for the word index *)

(** A word conforms when it has exactly [word_length] characters, all of
    them letters A-Z. *)
Definition conforming (word_length : Z) (word : string) : bool :=
  bool_decide (len word = word_length) && forallb is_upper (chars word).

(** The normalised words of the lines that conform, in file order. *)
Definition admitted_words (word_length : Z) (word_file : list string) : list string :=
  List.filter (conforming word_length) (map (λ line, upper (strip line)) word_file).

(** The key a chain is looked up under. *)
Definition chain_key (chain : list State) : string :=
  generate_key (String.concat "" (map get_abbr chain)).

(** [word] is matched by some chain of [chains]. *)
Definition matched (anagrams : gmap string (list string)) (chains : list (list State))
    (word : string) : Prop :=
  ∃ chain words, chain ∈ chains ∧ anagrams !! chain_key chain = Some words ∧ word ∈ words.

(** The string functions are not unfolded during simplification. *)
Arguments upper : simpl never.
Arguments strip : simpl never.
Arguments sort : simpl never.
Arguments generate_key : simpl never.
Arguments pattern_match : simpl never.
Arguments conforming : simpl never.
Arguments len : simpl never.

(** ** Further notions about tables *)

(** No state lists the same neighbor name twice. *)
Definition distinct_neighbors (graph : Table) : Prop :=
  Forall (λ s, NoDup (get_neighbors s)) (values graph).

(** A table whose only state lists a neighbor that has no entry. *)
Definition dangling_graph : Table := [
  ("A", State_init "A" "AA" (Some ["B"]))
].

(** Structural equality of [State] records is decidable (this is equality
    of the values, not [State.__eq__]). *)
Global Instance State_eq_dec : EqDecision State.
Proof. solve_decision. Defined.

(** Every abbreviation is two letters A-Z. *)
Definition postal_abbrs (graph : Table) : Prop :=
  Forall (λ s, conforming 2 (get_abbr s) = true) (values graph).

(** [chain_string] of the main loop: the abbreviations of a chain, joined. *)
Definition chain_string (chain : list State) : string :=
  String.concat "" (map get_abbr chain).

(** ** Printing a state *)

(** Strings compare as [str] values do: by the code points of the first
    characters that differ, a proper prefix first. *)
Fixpoint str_le (s t : string) : bool :=
  match s, t with
  | EmptyString, _ => true
  | String _ _, EmptyString => false
  | String a s', String b t' =>
    if (ord a <? ord b)%N then true
    else if (ord b <? ord a)%N then false
    else str_le s' t'
  end.

Definition str_order (s t : string) : Prop := str_le s t = true.

Global Instance str_order_dec s t : Decision (str_order s t) := decide (str_le s t = true).

(** [sorted(list(neighbors))] *)
Definition sorted (l : list string) : list string := merge_sort str_order l.

(** [State.__str__] *)
Definition State_str (s : State) : string :=
  name s +:+ " (" +:+ abbr s +:+ ") " +:+ String.concat ", " (sorted (neighbors s)).

Arguments sorted : simpl never.

(** ** Relations used by the proofs *)

(** The names a chain may still visit. *)
Definition unvisited (graph : Table) (chain : list State) : gset string :=
  visited (values graph) ∖ visited chain.

(** [h'] extends heap [h]: nothing is deallocated and every object of [h]
    selected by [keep] is unchanged. *)
Definition extends {A} (keep : ref → Prop) (h h' : list A) : Prop :=
  (length h ≤ length h')%nat ∧ ∀ r, (r < length h)%nat → keep r → h' !! r = h !! r.

(** What a traversal leaves behind when the reference emits [out]: the
    references appended to [chains] denote exactly [out]. *)
Definition emits (σ σ' : Store) (chains : ref) (fresh : ref → Prop)
    (out : list (list State)) : Prop :=
  ∃ refs,
    chains_objs σ' = alter (λ l, l ++ refs) chains (chains_objs σ) ∧
    Forall (λ r, fresh r ∧ (r < length (chain_objs σ'))%nat) refs ∧
    deref σ' <$> refs = out.

(** A run over the store agrees with a reference result: it raises the
    same exception, or finishes in a store satisfying [post]. *)
Definition agrees {A} (spec : Result (list (list State))) (run : Result (A * Store))
    (post : list (list State) → A → Store → Prop) : Prop :=
  match spec with
  | Raise e => run = Raise e
  | Ok out => ∃ a σ', run = Ok (a, σ') ∧ post out a σ'
  end.

(** The refinement statement for calls that may nest [limit] deep. *)
Definition refines_at (graph : Table) (limit : nat) : Prop :=
  ∀ state states_seen chains chain max_depth σ c,
    chain_objs σ !! chain = Some c →
    seen_objs σ !! states_seen = Some (visited c) →
    agrees (chains_from graph source_order limit state c max_depth)
           (traverse_neighbor_chain graph limit state states_seen chains chain max_depth σ)
           (λ out _ σ',
              extends (λ r, r ≠ chain) (chain_objs σ) (chain_objs σ') ∧
              extends (λ r, r ≠ states_seen) (seen_objs σ) (seen_objs σ') ∧
              emits σ σ' chains (λ r, r = chain ∨ (length (chain_objs σ) ≤ r)%nat) out).

(** Two results agree up to the order of the emitted chains. *)
Definition same_chains (r r' : Result (list (list State))) : Prop :=
  match r, r' with
  | Ok out, Ok out' => out ≡ₚ out'
  | Raise _, Raise _ => True
  | _, _ => False
  end.

(** * Properties *)

(** ** Facts about the static table, by evaluation *)

Lemma states_and_neighbors_well_keyed : well_keyed states_and_neighbors.
Proof. unfold well_keyed. split; apply (bool_decide_unpack _); vm_compute; exact I. Qed.

Lemma states_and_neighbors_closed : closed states_and_neighbors.
Proof. apply (bool_decide_unpack _). vm_compute. exact I. Qed.

Lemma states_and_neighbors_symmetric : symmetric states_and_neighbors.
Proof. apply (bool_decide_unpack _). vm_compute. exact I. Qed.

(** ** Sequencing of fallible branches *)

Lemma collect_elem_of {A B} (l : list A) (f : A → Result (list B)) out y :
  collect l f = Ok out →
  y ∈ out ↔ ∃ x ys, x ∈ l ∧ f x = Ok ys ∧ y ∈ ys.
Proof.
  revert out. induction l as [|x l IH]; simpl; intros out H.
  - inversion H; subst. split; [intros Hy; inversion Hy |].
    intros (x & ys & Hx & _); inversion Hx.
  - destruct (f x) as [ys|] eqn:Hfx; [|discriminate].
    destruct (collect l f) as [zs|] eqn:Hrest; [|discriminate].
    inversion H; subst. rewrite elem_of_app, (IH zs eq_refl). split.
    + intros [Hy | (x' & ys' & Hx' & Hf & Hy)].
      * exists x, ys. split; [left | done].
      * exists x', ys'. split; [by right | done].
    + intros (x' & ys' & Hx' & Hf & Hy).
      apply elem_of_cons in Hx' as [-> | Hx'].
      * left. congruence.
      * right. eauto.
Qed.

Lemma collect_all_Ok {A B} (l : list A) (f : A → Result (list B)) :
  (∀ x, x ∈ l → ∃ ys, f x = Ok ys) → ∃ out, collect l f = Ok out.
Proof.
  induction l as [|x l IH]; simpl; intros H; [eauto |].
  destruct (H x) as [ys ->]; [left |].
  destruct IH as [zs ->]; [intros; apply H; by right | eauto].
Qed.

Lemma collect_all_nil {A B} (l : list A) (f : A → Result (list B)) :
  (∀ x, x ∈ l → f x = Ok []) → collect l f = Ok [].
Proof.
  induction l as [|x l IH]; simpl; intros H; [done |].
  rewrite (H x) by left. rewrite IH; [done | intros; apply H; by right].
Qed.

Lemma collect_Ok_inv {A B} (l : list A) (f : A → Result (list B)) out x :
  collect l f = Ok out → x ∈ l → ∃ ys, f x = Ok ys.
Proof.
  revert out. induction l as [|x' l IH]; simpl; intros out H Hx; [inversion Hx |].
  destruct (f x') as [ys|] eqn:Hfx; [|discriminate].
  destruct (collect l f) as [zs|] eqn:Hrest; [|discriminate].
  apply elem_of_cons in Hx as [-> | Hx]; eauto.
Qed.

(** ** The reference enumeration on a well-formed table *)

Lemma dict_get_elem_of (graph : Table) key s :
  dict_get graph key = Some s → s ∈ values graph.
Proof.
  induction graph as [|[k v] g IH]; simpl; [done |].
  case_bool_decide; intros Hget.
  - inversion Hget; subst. left.
  - right. by apply IH.
Qed.

Lemma dict_get_values (graph : Table) s :
  well_keyed graph → s ∈ values graph → dict_get graph (name s) = Some s.
Proof.
  intros [Hnd Hk]. induction graph as [|[k v] g IH]; simpl; intros Hin.
  - inversion Hin.
  - simpl in Hnd. apply NoDup_cons in Hnd as [Hk_fresh Hnd].
    apply Forall_cons in Hk as [Hkv Hk]. simpl in Hkv.
    apply elem_of_cons in Hin as [-> | Hin].
    + by rewrite bool_decide_eq_true_2.
    + rewrite bool_decide_eq_false_2; [by apply IH |].
      intros ->. apply Hk_fresh.
      unfold values in Hin. apply list_elem_of_fmap in Hin as ([k' v'] & -> & Hin).
      rewrite Forall_forall in Hk. specialize (Hk _ Hin). simpl in *. subst k'.
      unfold keys. apply list_elem_of_fmap. by exists (name v', v').
Qed.

Lemma dict_get_key (graph : Table) key s :
  dict_get graph key = Some s → key ∈ keys graph.
Proof.
  induction graph as [|[k v] g IH]; simpl; [done |].
  case_bool_decide; intros Hget.
  - subst. left.
  - right. by apply IH.
Qed.

Lemma dict_get_name (graph : Table) key s :
  well_keyed graph → dict_get graph key = Some s → name s = key.
Proof.
  intros [_ Hk]. induction graph as [|[k v] g IH]; simpl; [done |].
  apply Forall_cons in Hk as [Hkv Hk]. simpl in Hkv.
  case_bool_decide; intros Hget.
  - inversion Hget; subst. done.
  - by apply IH.
Qed.

Section ReferenceFacts.

Variable graph : Table.
Variable explore : list string → list string.
Hypothesis explore_perm : ∀ l, explore l ≡ₚ l.

#[local] Abbreviation chains_from := (chains_from graph explore).

Lemma elem_of_visited (c : list State) (s : State) :
  s ∈ c → name s ∈ visited c.
Proof. intros H. unfold visited. apply elem_of_list_to_set, list_elem_of_fmap. eauto. Qed.

Lemma visited_snoc (c : list State) (s : State) :
  visited (c ++ [s]) = visited c ∪ {[name s]}.
Proof. unfold visited. rewrite fmap_app, list_to_set_app_L. simpl. set_solver. Qed.

Lemma unvisited_snoc_size (c : list State) (s : State) :
  s ∈ values graph → name s ∉ visited c →
  (size (unvisited graph (c ++ [s])) < size (unvisited graph c))%nat.
Proof.
  intros Hs Hfresh. apply subset_size. unfold unvisited. rewrite visited_snoc.
  apply elem_of_visited in Hs. set_solver.
Qed.

(** Every call returns: the recursion can nest at most once per state not
    yet on the chain, whatever the sign of [max_depth]. *)
Lemma chains_from_returns (limit : nat) :
  closed graph →
  ∀ state chain max_depth,
    state ∈ values graph → name state ∉ visited chain →
    (size (unvisited graph chain) ≤ limit)%nat →
    ∃ out, chains_from limit state chain max_depth = Ok out.
Proof.
  intros Hclosed. induction limit as [|limit IH]; intros state chain d Hs Hfresh Hsize.
  - exfalso. pose proof (unvisited_snoc_size chain state Hs Hfresh). lia.
  - simpl. destruct (d =? 0); [eauto |].
    apply collect_all_Ok. intros n Hn.
    rewrite explore_perm in Hn.
    unfold closed in Hclosed. rewrite Forall_forall in Hclosed.
    specialize (Hclosed _ Hs). rewrite Forall_forall in Hclosed.
    destruct (Hclosed _ Hn) as [nb Hnb]. rewrite Hnb.
    case_bool_decide as Hseen; [eauto |].
    apply IH; [by eapply dict_get_elem_of | done |].
    pose proof (unvisited_snoc_size chain state Hs Hfresh). lia.
Qed.

(** A negative depth never reaches zero: nothing is emitted. *)
Lemma chains_from_negative (limit : nat) :
  ∀ state chain max_depth out,
    max_depth < 0 → chains_from limit state chain max_depth = Ok out → out = [].
Proof.
  induction limit as [|limit IH]; intros state chain d out Hd H; [discriminate |].
  simpl in H. destruct (Z.eqb_spec d 0) as [|Hne]; [lia |].
  destruct out as [|y out]; [done | exfalso].
  assert (Hy : y ∈ y :: out) by left.
  apply (collect_elem_of _ _ _ _ H) in Hy as (n & ys & _ & Hf & Hy).
  destruct (dict_get graph n) as [nb|]; [|discriminate].
  case_bool_decide.
  - inversion Hf; subst. inversion Hy.
  - apply IH in Hf; [subst; inversion Hy | lia].
Qed.

(** Soundness: an emitted chain extends the chain of the call by the
    current state and [max_depth] further states, each linked to its
    predecessor, taken from the table and not yet on the chain. *)
Lemma chains_from_sound (limit : nat) :
  well_keyed graph →
  ∀ state chain max_depth out x,
    0 ≤ max_depth →
    chains_from limit state chain max_depth = Ok out → x ∈ out →
    ∃ rest, x = chain ++ state :: rest ∧
            length rest = Z.to_nat max_depth ∧
            linked (state :: rest) ∧
            Forall (λ s, s ∈ values graph) rest ∧
            NoDup (name <$> rest) ∧
            Forall (λ s, name s ∉ visited (chain ++ [state])) rest.
Proof.
  intros Hwk.
  induction limit as [|limit IH]; intros state chain d out x Hd H Hx; [discriminate |].
  simpl in H. destruct (Z.eqb_spec d 0) as [-> | Hne].
  - inversion H; subst. apply list_elem_of_singleton in Hx as ->.
    exists []. simpl. repeat split; auto using NoDup_nil_2.
  - apply (collect_elem_of _ _ _ _ H) in Hx as (n & ys & Hn & Hf & Hx).
    rewrite explore_perm in Hn.
    destruct (dict_get graph n) as [nb|] eqn:Hnb; [|discriminate].
    case_bool_decide as Hseen; [inversion Hf; subst; inversion Hx |].
    assert (Hname : nb ∈ values graph) by (by eapply dict_get_elem_of).
    destruct (IH nb (chain ++ [state]) (d - 1) ys x ltac:(lia) Hf Hx)
      as (rest & -> & Hlen & Hlink & Hvals & Hnd & Hfresh).
    exists (nb :: rest). rewrite <- app_assoc. simpl.
    split; [done |]. split; [rewrite Hlen; lia |].
    split; [split; [|done] |].
    { apply (dict_get_name _ _ _ Hwk) in Hnb. by subst n. }
    split; [by constructor |]. split.
    + apply NoDup_cons. split; [|done].
      intros Hin. apply list_elem_of_fmap in Hin as (t & Ht & Hin).
      rewrite Forall_forall in Hfresh. apply (Hfresh _ Hin).
      rewrite visited_snoc, <- Ht. set_solver.
    + constructor; [done |].
      eapply Forall_impl; [exact Hfresh |]. simpl. intros t Ht Hin.
      apply Ht. rewrite visited_snoc. set_solver.
Qed.

(** Completeness: every such extension is emitted. *)
Lemma chains_from_complete (limit : nat) :
  well_keyed graph →
  ∀ state chain max_depth out rest,
    chains_from limit state chain max_depth = Ok out →
    length rest = Z.to_nat max_depth → 0 ≤ max_depth →
    linked (state :: rest) →
    Forall (λ s, s ∈ values graph) rest →
    NoDup (name <$> rest) →
    Forall (λ s, name s ∉ visited (chain ++ [state])) rest →
    chain ++ state :: rest ∈ out.
Proof.
  intros Hwk.
  induction limit as [|limit IH];
    intros state chain d out rest H Hlen Hd Hlink Hvals Hnd Hfresh; [discriminate |].
  simpl in H. destruct (Z.eqb_spec d 0) as [-> | Hne].
  - destruct rest; [|discriminate]. inversion H; subst. left.
  - destruct rest as [|t rest]; [simpl in Hlen; lia |].
    destruct Hlink as [Ht Hlink].
    apply Forall_cons in Hvals as [Htv Hvals].
    apply Forall_cons in Hfresh as [Htf Hfresh].
    apply NoDup_cons in Hnd as [Htn Hnd].
    assert (Hin : name t ∈ explore (get_neighbors state)) by (by rewrite explore_perm).
    destruct (collect_Ok_inv _ _ _ _ H Hin) as [ys Hys].
    apply (collect_elem_of _ _ _ _ H). exists (name t), ys.
    split; [done |]. split; [done |].
    rewrite (dict_get_values _ _ Hwk Htv) in Hys.
    rewrite bool_decide_eq_false_2 in Hys by done.
    replace (chain ++ state :: t :: rest) with ((chain ++ [state]) ++ t :: rest)
      by (by rewrite <- app_assoc).
    apply (IH _ _ _ _ _ Hys); try done.
    + simpl in Hlen. lia.
    + lia.
    + apply Forall_forall. intros u Hu Hin'. rewrite Forall_forall in Hfresh.
      rewrite visited_snoc in Hin'. apply elem_of_union in Hin' as [Hin' | Hin'].
      * by apply (Hfresh u).
      * apply elem_of_singleton in Hin'. apply Htn.
        apply list_elem_of_fmap. by exists u.
Qed.

End ReferenceFacts.


(** ** The store-based traversal refines the reference enumeration *)

Lemma extends_refl {A} keep (h : list A) : extends keep h h.
Proof. split; [lia | done]. Qed.

Lemma extends_trans {A} (keep keep' : ref → Prop) (h1 h2 h3 : list A) :
  extends keep h1 h2 → extends keep' h2 h3 →
  extends (λ r, keep r ∧ keep' r) h1 h3.
Proof.
  intros [Hl1 H1] [Hl2 H2]. split; [lia |].
  intros r Hr [Hk Hk']. rewrite H2, H1; [done .. | lia | done].
Qed.

Lemma extends_weaken {A} (keep keep' : ref → Prop) (h h' : list A) :
  (∀ r, (r < length h)%nat → keep' r → keep r) → extends keep h h' → extends keep' h h'.
Proof. intros Hk [Hl H]. split; [done |]. intros r Hr Hk'. apply H; auto. Qed.

Lemma extends_alloc {A} keep (h : list A) x : extends keep h (h ++ [x]).
Proof.
  split; [rewrite length_app; lia |]. intros r Hr _. by rewrite lookup_app_l.
Qed.

Lemma extends_alter {A} (f : A → A) i (h : list A) : extends (λ r, r ≠ i) h (alter f i h).
Proof.
  split; [by rewrite length_alter |]. intros r _ Hr. by rewrite list_lookup_alter_ne.
Qed.

Lemma alter_snoc_compose {A} (a b : list A) i (h : list (list A)) :
  alter (λ l, l ++ b) i (alter (λ l, l ++ a) i h) = alter (λ l, l ++ (a ++ b)) i h.
Proof.
  apply list_eq. intros j. destruct (decide (i = j)) as [-> | Hne].
  - rewrite !list_lookup_alter_eq. destruct (h !! j); simpl; [|done].
    by rewrite app_assoc.
  - by rewrite !list_lookup_alter_ne.
Qed.

Lemma alter_snoc_nil {A} i (h : list (list A)) : alter (λ l, l ++ []) i h = h.
Proof. apply list_alter_id. intros. apply app_nil_r. Qed.

Lemma extends_lookup {A} keep (h h' : list A) r x :
  extends keep h h' → h !! r = Some x → keep r → h' !! r = Some x.
Proof.
  intros [_ H] Hr Hk. rewrite H; [done | by eapply lookup_lt_Some | done].
Qed.

Lemma emits_nil σ σ' chains fresh :
  chains_objs σ' = chains_objs σ → emits σ σ' chains fresh [].
Proof.
  intros H. exists []. by rewrite alter_snoc_nil.
Qed.

Lemma emits_app σ1 σ2 σ3 chains (f1 f2 f : ref → Prop) out1 out2 :
  emits σ1 σ2 chains f1 out1 → emits σ2 σ3 chains f2 out2 →
  extends (λ _, True) (chain_objs σ2) (chain_objs σ3) →
  (∀ r, f1 r → f r) → (∀ r, f2 r → f r) →
  emits σ1 σ3 chains f (out1 ++ out2).
Proof.
  intros (r1 & Hc1 & Hf1 & Hd1) (r2 & Hc2 & Hf2 & Hd2) [Hlen Hext] Hi1 Hi2.
  exists (r1 ++ r2). split; [by rewrite Hc2, Hc1, alter_snoc_compose |].
  split.
  - apply Forall_app. split.
    + eapply Forall_impl; [exact Hf1 |]. simpl. intros r [? ?]. split; [auto | lia].
    + eapply Forall_impl; [exact Hf2 |]. simpl. intros r [? ?]. split; auto.
  - rewrite fmap_app. f_equal; [|done]. rewrite <- Hd1.
    apply Forall_fmap_ext. eapply Forall_impl; [exact Hf1 |]. simpl.
    intros r [_ Hr]. unfold deref. by rewrite Hext.
Qed.

Lemma emits_weaken σ0 σ σ' chains (f f' : ref → Prop) out :
  chains_objs σ0 = chains_objs σ → (∀ r, f r → f' r) →
  emits σ σ' chains f out → emits σ0 σ' chains f' out.
Proof.
  intros Heq Hf (refs & Hc & Hfr & Hd). exists refs. rewrite Heq.
  split; [done |]. split; [|done].
  eapply Forall_impl; [exact Hfr |]. simpl. intros r [? ?]. auto.
Qed.

Section Refinement.

Variable graph : Table.

#[local] Abbreviation traverse := (traverse_neighbor_chain graph).
#[local] Abbreviation reference := (chains_from graph source_order).

(** A call on freshly allocated copies leaves every older object alone. *)
Lemma traverse_on_copies (limit : nat) :
  refines_at graph limit →
  ∀ state chains max_depth σ c,
    agrees (reference limit state c max_depth)
           (traverse limit state (length (seen_objs σ)) chains (length (chain_objs σ))
                     max_depth
                     (mkStore (chain_objs σ ++ [c]) (seen_objs σ ++ [visited c])
                              (chains_objs σ)))
           (λ out _ σ',
              extends (λ _, True) (chain_objs σ) (chain_objs σ') ∧
              extends (λ _, True) (seen_objs σ) (seen_objs σ') ∧
              emits σ σ' chains (λ r, (length (chain_objs σ) ≤ r)%nat) out).
Proof.
  intros IH state chains d σ c.
  set (σ0 := mkStore _ _ _).
  specialize (IH state (length (seen_objs σ)) chains (length (chain_objs σ)) d σ0 c).
  assert (Hc : chain_objs σ0 !! length (chain_objs σ) = Some c)
    by (by apply list_lookup_middle).
  assert (HS : seen_objs σ0 !! length (seen_objs σ) = Some (visited c))
    by (by apply list_lookup_middle).
  specialize (IH Hc HS). unfold agrees in *.
  destruct (reference limit state c d) as [out|e]; [|done].
  destruct IH as ([] & σ' & Hrun & Hec & Hes & Hem). exists tt, σ'. split; [done |].
  split; [| split].
  - eapply extends_weaken; [| eapply extends_trans; [apply (extends_alloc (λ _, True)) | exact Hec]].
    simpl. intros r Hr _. split; [done | lia].
  - eapply extends_weaken; [| eapply extends_trans; [apply (extends_alloc (λ _, True)) | exact Hes]].
    simpl. intros r Hr _. split; [done | lia].
  - eapply emits_weaken; [| | exact Hem]; [done |].
    subst σ0. simpl. intros r. rewrite length_app. simpl. lia.
Qed.

(** The loop over the neighbors of the current state. *)
Lemma neighbors_loop (limit : nat) :
  refines_at graph limit →
  ∀ states_seen chains chain max_depth c ns σ,
    chain_objs σ !! chain = Some c →
    seen_objs σ !! states_seen = Some (visited c) →
    agrees
      (collect ns (λ neighbor_name,
         match dict_get graph neighbor_name with
         | None => Raise (KeyError neighbor_name)
         | Some neighbor =>
           if bool_decide (name neighbor ∈ visited c) then Ok []
           else reference limit neighbor c max_depth
         end))
      (for_each ns (λ neighbor_name,
         neighbor ← lookup_state graph neighbor_name;
         seen ← seen_contains states_seen neighbor;
         if (seen : bool) then ret tt
         else
           local_states_seen ← seen_copy states_seen;
           local_chain ← chain_copy chain;
           traverse limit neighbor local_states_seen chains local_chain max_depth) σ)
      (λ out _ σ',
         extends (λ _, True) (chain_objs σ) (chain_objs σ') ∧
         extends (λ _, True) (seen_objs σ) (seen_objs σ') ∧
         emits σ σ' chains (λ r, (length (chain_objs σ) ≤ r)%nat) out).
Proof.
  intros IH states_seen chains chain d c ns.
  induction ns as [|n ns IHns]; intros σ Hc HS.
  - simpl. exists tt, σ. split; [done |].
    split; [apply extends_refl |]. split; [apply extends_refl |]. by apply emits_nil.
  - specialize (IHns σ Hc HS) as IHskip.
    pose proof (traverse_on_copies limit IH) as Hcall.
    simpl collect. simpl for_each.
    unfold mbind, M_bind, bind, lookup_state, seen_contains, seen_copy, chain_copy, ret, raise in *.
    destruct (dict_get graph n) as [nb|]; [|done].
    simpl. rewrite HS. simpl.
    case_bool_decide as Hseen.
    + unfold agrees in *. destruct (collect ns _) as [zs|e]; done.
    + rewrite Hc, HS. simpl.
      specialize (Hcall nb chains d σ c). unfold agrees in Hcall |- *.
      destruct (reference limit nb c d) as [ys|e]; [|by rewrite Hcall].
      destruct Hcall as ([] & σ1 & -> & Hec & Hes & Hem).
      specialize (IHns σ1 (extends_lookup _ _ _ _ _ Hec Hc I)
                          (extends_lookup _ _ _ _ _ Hes HS I)).
      unfold agrees in IHns.
      destruct (collect ns _) as [zs|e]; [|done].
      destruct IHns as ([] & σ2 & Hrun & Hec2 & Hes2 & Hem2).
      exists tt, σ2. split; [done |].
      split; [| split].
      * eapply extends_weaken; [| eapply extends_trans; [exact Hec | exact Hec2]]. done.
      * eapply extends_weaken; [| eapply extends_trans; [exact Hes | exact Hes2]]. done.
      * eapply emits_app; [exact Hem | exact Hem2 | done | done |].
        simpl. intros r. destruct Hec as [Hlen _]. lia.
Qed.

(** The traversal over the store computes what the reference computes,
    raises where it raises, and touches no object but its own chain, its
    own visited set and the [chains] list. *)
Lemma traverse_refines (limit : nat) : refines_at graph limit.
Proof.
  induction limit as [|limit IH]; intros state states_seen chains chain d σ c Hc HS;
    [done |].
  pose proof (neighbors_loop limit IH states_seen chains chain (d - 1) (c ++ [state])
                (get_neighbors state)) as Hloop.
  simpl chains_from. simpl traverse_neighbor_chain.
  unfold mbind, M_bind, bind, chain_append, chains_append, seen_add in *. simpl.
  destruct (Z.eqb_spec d 0) as [-> | Hne].
  - exists tt. eexists. split; [reflexivity |]. simpl.
    split; [apply extends_alter |]. split; [apply extends_refl |].
    exists [chain]. simpl. split; [done |]. split.
    + constructor; [|done]. split; [by left |].
      rewrite length_alter. by eapply lookup_lt_Some.
    + unfold deref. simpl. by rewrite list_lookup_alter_eq, Hc.
  - set (σ1 := mkStore _ _ _).
    assert (Hc1 : chain_objs σ1 !! chain = Some (c ++ [state])).
    { subst σ1; simpl. by rewrite list_lookup_alter_eq, Hc. }
    assert (HS1 : seen_objs σ1 !! states_seen = Some (visited (c ++ [state]))).
    { subst σ1; simpl. rewrite list_lookup_alter_eq, HS. simpl. f_equal.
      unfold visited. rewrite fmap_app, list_to_set_app_L. simpl. set_solver. }
    assert (Hext_c : extends (λ r, r ≠ chain) (chain_objs σ) (chain_objs σ1))
      by apply extends_alter.
    assert (Hext_s : extends (λ r, r ≠ states_seen) (seen_objs σ) (seen_objs σ1))
      by apply extends_alter.
    assert (Hchains : chains_objs σ1 = chains_objs σ) by done.
    clearbody σ1. specialize (Hloop σ1 Hc1 HS1).
    unfold source_order, agrees in *.
    destruct (collect (get_neighbors state) _) as [out|e]; [|done].
    destruct Hloop as ([] & σ2 & Hrun & Hec & Hes & Hem).
    exists tt, σ2. split; [done |]. split; [| split].
    + eapply extends_weaken; [| eapply extends_trans; [exact Hext_c | exact Hec]]. done.
    + eapply extends_weaken; [| eapply extends_trans; [exact Hext_s | exact Hes]]. done.
    + eapply emits_weaken; [| | exact Hem]; [done |].
      simpl. intros r. destruct Hext_c as [Hlen _]. lia.
Qed.

(** The loop of [build_neighbor_chains] over the states of the table. *)
Lemma states_loop (limit : nat) (chains : ref) (max_depth : Z) :
  ∀ vs σ,
    agrees
      (collect vs (λ state, reference limit state [] max_depth))
      (for_each vs (λ state,
         new_chain ← new_chain_obj;
         states_seen ← new_seen_obj;
         traverse limit state states_seen chains new_chain max_depth) σ)
      (λ out _ σ',
         extends (λ _, True) (chain_objs σ) (chain_objs σ') ∧
         extends (λ _, True) (seen_objs σ) (seen_objs σ') ∧
         emits σ σ' chains (λ r, (length (chain_objs σ) ≤ r)%nat) out).
Proof.
  induction vs as [|s vs IHvs]; intros σ.
  - simpl. exists tt, σ. split; [done |].
    split; [apply extends_refl |]. split; [apply extends_refl |]. by apply emits_nil.
  - pose proof (traverse_on_copies limit (traverse_refines limit) s chains max_depth σ [])
      as Hcall.
    simpl collect. simpl for_each.
    unfold mbind, M_bind, bind, new_chain_obj, new_seen_obj in *. simpl.
    unfold agrees in Hcall |- *. change (visited []) with (∅ : gset string) in Hcall.
    destruct (reference limit s [] max_depth) as [ys|e]; [|by rewrite Hcall].
    destruct Hcall as ([] & σ1 & -> & Hec & Hes & Hem).
    specialize (IHvs σ1). unfold agrees in IHvs.
    destruct (collect vs _) as [zs|e]; [|done].
    destruct IHvs as ([] & σ2 & Hrun & Hec2 & Hes2 & Hem2).
    exists tt, σ2. split; [done |].
    split; [| split].
    + eapply extends_weaken; [| eapply extends_trans; [exact Hec | exact Hec2]]. done.
    + eapply extends_weaken; [| eapply extends_trans; [exact Hes | exact Hes2]]. done.
    + eapply emits_app; [exact Hem | exact Hem2 | done | done |].
      simpl. intros r. destruct Hec as [Hlen _]. lia.
Qed.

(** [build_neighbor_chains], started in any store, returns a fresh [chains]
    object denoting the reference result; older objects are untouched and
    later allocations cannot change what the result denotes. *)
Lemma build_refines (limit : nat) (chain_length : Z) (σ : Store) :
  agrees (reference_chains graph source_order limit chain_length)
         (build_neighbor_chains graph limit chain_length σ)
         (λ out chains σ',
            read_chains σ' chains = out ∧
            chains = length (chains_objs σ) ∧
            (chains < length (chains_objs σ'))%nat ∧
            extends (λ _, True) (chain_objs σ) (chain_objs σ') ∧
            extends (λ _, True) (chains_objs σ) (chains_objs σ') ∧
            ∀ σ'', extends (λ _, True) (chain_objs σ') (chain_objs σ'') →
                   extends (λ _, True) (chains_objs σ') (chains_objs σ'') →
                   read_chains σ'' chains = out).
Proof.
  pose proof (states_loop limit (length (chains_objs σ)) (chain_length - 1) (values graph)
                (mkStore (chain_objs σ) (seen_objs σ) (chains_objs σ ++ [[]]))) as Hloop.
  assert (Hrun : build_neighbor_chains graph limit chain_length σ =
    match for_each (values graph) (λ state,
            new_chain ← new_chain_obj;
            states_seen ← new_seen_obj;
            traverse limit state states_seen (length (chains_objs σ)) new_chain
                     (chain_length - 1))
            (mkStore (chain_objs σ) (seen_objs σ) (chains_objs σ ++ [[]])) with
    | Ok (_, σ') => Ok (length (chains_objs σ), σ')
    | Raise e => Raise e
    end) by reflexivity.
  rewrite Hrun. clear Hrun. unfold reference_chains, agrees in *.
  destruct (collect (values graph) _) as [out|e]; [|by rewrite Hloop].
  destruct Hloop as ([] & σ' & -> & Hec & _ & refs & Hchains & Hfresh & Hout).
  simpl in *. exists (length (chains_objs σ)), σ'. split; [done |].
  assert (Hrefs : chains_objs σ' !! length (chains_objs σ) = Some refs).
  { rewrite Hchains, list_lookup_alter_eq, list_lookup_middle by done. done. }
  split; [| split; [done | split; [by eapply lookup_lt_Some | split; [done | split]]]].
  - unfold read_chains. by rewrite Hrefs.
  - rewrite Hchains. split; [rewrite length_alter, length_app; simpl; lia |].
    intros r Hr _. rewrite list_lookup_alter_ne by lia. by rewrite lookup_app_l.
  - intros σ'' [_ Hc''] [_ Hch'']. unfold read_chains.
    rewrite Hch''; [| by eapply lookup_lt_Some | done]. rewrite Hrefs. simpl.
    rewrite <- Hout. apply Forall_fmap_ext.
    eapply Forall_impl; [exact Hfresh |]. simpl. intros r [_ Hr].
    unfold deref. by rewrite Hc''.
Qed.

End Refinement.

(** The observable result of the store-based enumerator is the reference
    result, whatever store it starts in. *)
Lemma run_chains_reference (graph : Table) (limit : nat) (chain_length : Z) (σ : Store) :
  run_chains (build_neighbor_chains graph limit chain_length) σ
  = reference_chains graph source_order limit chain_length.
Proof.
  pose proof (build_refines graph limit chain_length σ) as H.
  unfold run_chains, agrees in *.
  destruct (reference_chains graph source_order limit chain_length) as [out|e].
  - destruct H as (chains & σ' & -> & <- & _). done.
  - by rewrite H.
Qed.


(** ** The whole enumeration *)

Lemma size_visited_le (l : list State) : (size (visited l) ≤ length l)%nat.
Proof.
  induction l as [|s l IH].
  - change (size (∅ : gset string) ≤ 0)%nat. by rewrite size_empty.
  - change (size ({[name s]} ∪ visited l) ≤ S (length l))%nat.
    rewrite size_union_alt, size_singleton.
    assert (Hsub : visited l ∖ {[name s]} ⊆ visited l) by set_solver.
    apply subseteq_size in Hsub. lia.
Qed.

Section ReferenceChains.

Variable graph : Table.
Variable explore : list string → list string.
Hypothesis explore_perm : ∀ l, explore l ≡ₚ l.

Lemma reference_chains_returns (limit : nat) (chain_length : Z) :
  closed graph → (length graph ≤ limit)%nat →
  ∃ out, reference_chains graph explore limit chain_length = Ok out.
Proof.
  intros Hclosed Hlimit. apply collect_all_Ok. intros s Hs.
  apply (chains_from_returns graph explore explore_perm limit Hclosed); [done | |].
  - unfold visited. simpl. set_solver.
  - pose proof (size_visited_le (values graph)) as Hle.
    unfold values in Hle at 2. rewrite length_map in Hle.
    pose proof (subseteq_size (unvisited graph []) (visited (values graph))) as Hsub.
    assert (unvisited graph [] ⊆ visited (values graph)) by (unfold unvisited; set_solver).
    specialize (Hsub H). lia.
Qed.

Lemma reference_chains_nonpositive (limit : nat) (chain_length : Z) :
  closed graph → (length graph ≤ limit)%nat → chain_length ≤ 0 →
  reference_chains graph explore limit chain_length = Ok [].
Proof.
  intros Hclosed Hlimit Hn.
  destruct (reference_chains_returns limit chain_length Hclosed Hlimit) as [out Hout].
  rewrite Hout. f_equal. destruct out as [|c out]; [done | exfalso].
  assert (Hc : c ∈ c :: out) by left.
  apply (collect_elem_of _ _ _ _ Hout) in Hc as (s & ys & _ & Hys & Hc).
  apply chains_from_negative in Hys; [| lia]. subst ys. inversion Hc.
Qed.

Lemma reference_chains_sound (limit : nat) (chain_length : Z) out c :
  well_keyed graph → 1 ≤ chain_length →
  reference_chains graph explore limit chain_length = Ok out → c ∈ out →
  length c = Z.to_nat chain_length ∧ simple_path graph c.
Proof.
  intros Hwk Hn Hout Hc.
  apply (collect_elem_of _ _ _ _ Hout) in Hc as (s & ys & Hs & Hys & Hc).
  destruct (chains_from_sound graph explore explore_perm limit Hwk s [] (chain_length - 1)
              ys c ltac:(lia) Hys Hc) as (rest & -> & Hlen & Hlink & Hvals & Hnd & Hfresh).
  simpl. split; [rewrite Hlen; lia |].
  split; [by constructor |]. split; [|done].
  apply NoDup_cons. split; [|done].
  intros Hin. apply list_elem_of_fmap in Hin as (t & Ht & Hin).
  rewrite Forall_forall in Hfresh. apply (Hfresh _ Hin).
  unfold visited. simpl. rewrite Ht. set_solver.
Qed.

Lemma reference_chains_complete (limit : nat) (chain_length : Z) out c :
  well_keyed graph → 1 ≤ chain_length →
  reference_chains graph explore limit chain_length = Ok out →
  simple_path graph c → length c = Z.to_nat chain_length →
  c ∈ out.
Proof.
  intros Hwk Hn Hout (Hvals & Hnd & Hlink) Hlen.
  destruct c as [|s rest]; [simpl in Hlen; lia |].
  apply Forall_cons in Hvals as [Hs Hvals].
  apply NoDup_cons in Hnd as [Hfresh Hnd].
  destruct (collect_Ok_inv _ _ _ _ Hout Hs) as [ys Hys].
  apply (collect_elem_of _ _ _ _ Hout). exists s, ys. split; [done |]. split; [done |].
  apply (chains_from_complete graph explore explore_perm limit Hwk s [] (chain_length - 1)
           ys rest Hys); try done.
  - simpl in Hlen. lia.
  - lia.
  - apply Forall_forall. intros t Ht Hin. apply Hfresh.
    unfold visited in Hin. simpl in Hin.
    apply elem_of_union in Hin as [Hin | Hin]; [| set_solver].
    apply elem_of_singleton in Hin. apply list_elem_of_fmap. by exists t.
Qed.

(** Length 1: one single-state chain per state of the table, in table order. *)
Lemma reference_chains_one (limit : nat) :
  (1 ≤ limit)%nat →
  reference_chains graph explore limit 1 = Ok ((λ s, [s]) <$> values graph).
Proof.
  intros Hlimit. destruct limit as [|limit]; [lia |].
  unfold reference_chains.
  induction (values graph) as [|s vs IH]; [done |].
  rewrite fmap_cons. cbn [collect]. rewrite IH. reflexivity.
Qed.

End ReferenceChains.

(** ** Independence of the exploration order *)

Lemma same_chains_refl r : same_chains r r.
Proof. destruct r; simpl; done. Qed.

Lemma same_chains_trans r1 r2 r3 :
  same_chains r1 r2 → same_chains r2 r3 → same_chains r1 r3.
Proof.
  destruct r1, r2, r3; simpl; try done. intros. by etrans.
Qed.

Lemma collect_ext_same {A} (l : list A) (f g : A → Result (list (list State))) :
  (∀ x, x ∈ l → same_chains (f x) (g x)) →
  same_chains (collect l f) (collect l g).
Proof.
  induction l as [|x l IH]; intros H; simpl; [done |].
  pose proof (H x ltac:(left)) as Hx.
  specialize (IH (λ y Hy, H y ltac:(by right))).
  destruct (f x), (g x); simpl in *; try done.
  destruct (collect l f), (collect l g); simpl in *; try done.
  by apply Permutation_app.
Qed.

Lemma collect_perm_same {A} (l l' : list A) (f : A → Result (list (list State))) :
  l ≡ₚ l' → same_chains (collect l f) (collect l' f).
Proof.
  induction 1 as [|x l l' _ IH|x y l|l1 l2 l3 _ IH1 _ IH2]; simpl.
  - done.
  - destruct (f x); simpl; [|done].
    destruct (collect l f), (collect l' f); simpl in *; try done.
    by apply Permutation_app.
  - destruct (f x), (f y); simpl; try done.
    destruct (collect l f); simpl; [|done].
    rewrite !app_assoc. apply Permutation_app; [apply Permutation_app_comm | done].
  - by eapply same_chains_trans.
Qed.

Lemma chains_from_order (graph : Table) (explore explore' : list string → list string) :
  (∀ l, explore l ≡ₚ explore' l) →
  ∀ limit state chain max_depth,
    same_chains (chains_from graph explore limit state chain max_depth)
                (chains_from graph explore' limit state chain max_depth).
Proof.
  intros Hperm. induction limit as [|limit IH]; intros state chain d; simpl; [done |].
  destruct (d =? 0); [apply same_chains_refl |].
  eapply same_chains_trans; [apply collect_perm_same, Hperm |].
  apply collect_ext_same. intros n _.
  destruct (dict_get graph n); [|done].
  case_bool_decide; [apply same_chains_refl | apply IH].
Qed.

Lemma reference_chains_order (graph : Table) (explore explore' : list string → list string) :
  (∀ l, explore l ≡ₚ explore' l) →
  ∀ limit chain_length,
    same_chains (reference_chains graph explore limit chain_length)
                (reference_chains graph explore' limit chain_length).
Proof.
  intros Hperm limit n. apply collect_ext_same. intros s _.
  by apply chains_from_order.
Qed.

(** ** Strings and keys *)

Lemma chars_join (l : list ascii) : chars (join l) = l.
Proof. apply list_ascii_of_string_of_list_ascii. Qed.

Lemma join_chars (s : string) : join (chars s) = s.
Proof. apply string_of_list_ascii_of_string. Qed.

Lemma length_chars (s : string) : length (chars s) = String.length s.
Proof. induction s as [|c s IH]; simpl; [done | by rewrite IH]. Qed.

Lemma ord_inj (a b : ascii) : ord a = ord b → a = b.
Proof.
  unfold ord. intros H. rewrite <- (ascii_N_embedding a), <- (ascii_N_embedding b).
  by rewrite H.
Qed.

Global Instance char_le_total : Total char_le.
Proof. intros a b. unfold char_le. lia. Qed.

Global Instance char_le_trans : Transitive char_le.
Proof. intros a b c. unfold char_le. lia. Qed.

Global Instance char_le_antisymm : AntiSymm (=) char_le.
Proof. intros a b Hab Hba. apply ord_inj. unfold char_le in *. lia. Qed.

(** Sorting forgets the order of the letters. *)
Lemma sort_permutation (l l' : list ascii) : l ≡ₚ l' → sort l = sort l'.
Proof.
  intros Hperm. unfold sort.
  apply (StronglySorted_unique char_le); try apply StronglySorted_merge_sort; try apply _.
  by rewrite !merge_sort_Permutation.
Qed.

Lemma generate_key_permutation (query word : string) :
  chars query ≡ₚ chars word → generate_key query = generate_key word.
Proof. intros Hperm. unfold generate_key. by rewrite (sort_permutation _ _ Hperm). Qed.

(** ** The word filter *)

(** On a word of the right length the pattern only checks the letters. *)
Lemma pattern_match_len (word_length : Z) (word : string) :
  len word = word_length →
  pattern_match word_length word = forallb is_upper (chars word).
Proof.
  unfold len, pattern_match. intros <-. cbv zeta.
  rewrite (proj2 (Z.leb_le _ _)) by lia. rewrite Nat2Z.id, <- length_chars.
  rewrite firstn_all, drop_all. rewrite !bool_decide_eq_true_2 by done.
  cbn [orb]. by rewrite !andb_true_r.
Qed.

Lemma index_line_conforming (word_length : Z) (anagrams : gmap string (list string))
    (line : string) :
  index_line word_length anagrams line =
  let word := upper (strip line) in
  if conforming word_length word then
    <[generate_key word := default [] (anagrams !! generate_key word) ++ [word]]> anagrams
  else anagrams.
Proof.
  unfold index_line, conforming. cbv zeta.
  set (word := upper (strip line)). set (key := generate_key word).
  destruct (len word =? word_length) eqn:Hlen; cbn [negb].
  - apply Z.eqb_eq in Hlen. rewrite bool_decide_eq_true_2 by done.
    rewrite (pattern_match_len _ _ Hlen). cbn [andb].
    destruct (forallb is_upper (chars word)); [|reflexivity].
    destruct (anagrams !! key); reflexivity.
  - apply Z.eqb_neq in Hlen. rewrite bool_decide_eq_false_2 by done. reflexivity.
Qed.

Lemma insert_snoc_changes (anagrams : gmap string (list string)) (key word : string) :
  <[key := default [] (anagrams !! key) ++ [word]]> anagrams ≠ anagrams.
Proof.
  intros Heq. assert (Hk : (<[key := default [] (anagrams !! key) ++ [word]]> anagrams) !! key
                           = anagrams !! key) by (by rewrite Heq).
  rewrite lookup_insert_eq in Hk. destruct (anagrams !! key) as [ws|]; [|done].
  simpl in Hk. inversion Hk as [Hl]. apply (f_equal length) in Hl.
  rewrite length_app in Hl. simpl in Hl. lia.
Qed.

(** The index groups the admitted words by key, in file order. *)
Lemma fold_index_lookup (word_length : Z) (word_file : list string) :
  ∀ (anagrams : gmap string (list string)) (seen : list string),
    (∀ key, default [] (anagrams !! key)
            = List.filter (λ w, bool_decide (generate_key w = key)) seen) →
    ∀ key, default [] (fold_left (index_line word_length) word_file anagrams !! key)
           = List.filter (λ w, bool_decide (generate_key w = key))
                         (seen ++ admitted_words word_length word_file).
Proof.
  induction word_file as [|line lines IH]; intros anagrams seen Hinv key.
  - unfold admitted_words. cbn [map List.filter fold_left]. by rewrite app_nil_r.
  - cbn [fold_left]. unfold admitted_words. cbn [map List.filter].
    rewrite index_line_conforming. cbv zeta.
    set (word := upper (strip line)).
    destruct (conforming word_length word) eqn:Hconf.
    + rewrite (IH _ (seen ++ [word])).
      * by rewrite <- app_assoc.
      * intros k. rewrite List.filter_app. cbn [List.filter].
        destruct (decide (generate_key word = k)) as [<- | Hne].
        -- rewrite lookup_insert_eq, bool_decide_eq_true_2 by done.
           cbn [default]. by rewrite Hinv.
        -- rewrite lookup_insert_ne, bool_decide_eq_false_2 by done.
           by rewrite app_nil_r.
    + by apply IH.
Qed.

Lemma build_index_lookup (word_length : Z) (word_file : list string) (key : string) :
  default [] (build_index word_length word_file !! key)
  = List.filter (λ w, bool_decide (generate_key w = key))
                (admitted_words word_length word_file).
Proof.
  unfold build_index.
  by rewrite (fold_index_lookup word_length word_file ∅ []).
Qed.

(** ** The report *)

Lemma elem_of_fold_add (words : list string) (total : gset string) (word : string) :
  word ∈ fold_left (λ total_found_words w, {[w]} ∪ total_found_words) words total
  ↔ word ∈ words ∨ word ∈ total.
Proof.
  revert total. induction words as [|w words IH]; intros total; simpl.
  - split; [by right | intros [H | H]; [inversion H | done]].
  - rewrite IH, elem_of_union, elem_of_singleton, elem_of_cons. naive_solver.
Qed.

Lemma fold_report_chain (anagrams : gmap string (list string)) (chains : list (list State)) :
  ∀ printed total,
    fst (fold_left (report_chain anagrams) chains (printed, total))
    = printed ++ omap (λ chain, report_line (map get_abbr chain)
                                  <$> anagrams !! chain_key chain) chains
    ∧ ∀ word, word ∈ snd (fold_left (report_chain anagrams) chains (printed, total))
              ↔ matched anagrams chains word ∨ word ∈ total.
Proof.
  induction chains as [|chain chains IH]; intros printed total.
  - simpl. rewrite app_nil_r. split; [done |]. intros word. split; [by right |].
    intros [(c & ws & Hc & _) | H]; [inversion Hc | done].
  - simpl fold_left. unfold report_chain at 2 4. fold (chain_key chain). simpl omap.
    destruct (anagrams !! chain_key chain) as [words|] eqn:Hk; simpl.
    + destruct (IH (printed ++ [report_line (map get_abbr chain) words])
                   (fold_left (λ t w, {[w]} ∪ t) words total)) as [IH1 IH2].
      split; [by rewrite IH1, <- app_assoc |].
      intros word. rewrite IH2, elem_of_fold_add. unfold matched. split.
      * intros [(c & ws & Hc & Hws & Hw) | [Hw | Hw]].
        -- left. exists c, ws. split; [by right | done].
        -- left. exists chain, words. split; [left | done].
        -- by right.
      * intros [(c & ws & Hc & Hws & Hw) | Hw]; [| by right; right].
        apply elem_of_cons in Hc as [-> | Hc].
        -- right; left. congruence.
        -- left. by exists c, ws.
    + destruct (IH printed total) as [IH1 IH2]. split; [done |].
      intros word. rewrite IH2. unfold matched. split.
      * intros [(c & ws & Hc & Hws & Hw) | Hw]; [| by right].
        left. exists c, ws. split; [by right | done].
      * intros [(c & ws & Hc & Hws & Hw) | Hw]; [| by right].
        apply elem_of_cons in Hc as [-> | Hc]; [congruence |].
        left. by exists c, ws.
Qed.

Lemma filter_eq_absent (l : list string) (x : string) :
  x ∉ l → List.filter (λ y, bool_decide (y = x)) l = [].
Proof.
  induction l as [|y l IH]; intros Hx; simpl; [done |].
  apply not_elem_of_cons in Hx as [Hne Hx].
  rewrite bool_decide_eq_false_2 by done. by apply IH.
Qed.

Lemma NoDup_count_one (l : list string) (x : string) :
  NoDup l → x ∈ l → length (List.filter (λ y, bool_decide (y = x)) l) = 1%nat.
Proof.
  induction 1 as [|y l Hy Hnd IH]; intros Hx; [inversion Hx |].
  simpl. apply elem_of_cons in Hx as [-> | Hx].
  - rewrite bool_decide_eq_true_2 by done. simpl. by rewrite filter_eq_absent.
  - rewrite bool_decide_eq_false_2; [by apply IH |].
    intros ->. done.
Qed.

(** ** Paths, positions and reversal *)

Lemma linked_lookup (c : list State) (i : nat) (s t : State) :
  linked c → c !! i = Some s → c !! S i = Some t → name t ∈ get_neighbors s.
Proof.
  revert i. induction c as [|a c IH]; intros i Hlink Hs Ht; [done |].
  destruct c as [|b c]; [done |]. destruct Hlink as [Hab Hlink].
  destruct i as [|i].
  - simpl in Hs, Ht. by simplify_eq.
  - by apply (IH i).
Qed.

Lemma simple_path_rev_neq (graph : Table) (c : list State) :
  simple_path graph c → (2 ≤ length c)%nat → c ≠ rev c.
Proof.
  intros (_ & Hnd & _) Hlen Heq.
  destruct c as [|s rest]; [simpl in Hlen; lia |].
  destruct rest as [|t rest _] using rev_ind; [simpl in Hlen; lia |].
  simpl in Heq. rewrite rev_app_distr in Heq. simpl in Heq.
  injection Heq as Hst _. subst t.
  rewrite fmap_cons, fmap_app in Hnd. apply NoDup_cons in Hnd as [Hfresh _].
  apply Hfresh. apply elem_of_app. right. simpl. left.
Qed.

(** ** The enumerator on the table of the states *)

Lemma build_returns (limit : nat) (chain_length : Z) (σ : Store) :
  (length states_and_neighbors ≤ limit)%nat →
  ∃ chains,
    run_chains (build_neighbor_chains states_and_neighbors limit chain_length) σ = Ok chains
    ∧ reference_chains states_and_neighbors source_order limit chain_length = Ok chains.
Proof.
  intros Hlimit. rewrite run_chains_reference.
  destruct (reference_chains_returns states_and_neighbors source_order
              (λ l, reflexivity l) limit chain_length
              states_and_neighbors_closed Hlimit) as [out Hout].
  eauto.
Qed.

Lemma build_nonpositive (limit : nat) (chain_length : Z) (σ : Store) :
  (length states_and_neighbors ≤ limit)%nat → chain_length ≤ 0 →
  run_chains (build_neighbor_chains states_and_neighbors limit chain_length) σ = Ok [].
Proof.
  intros Hlimit Hn. rewrite run_chains_reference.
  by apply reference_chains_nonpositive;
    [intros; reflexivity | apply states_and_neighbors_closed | |].
Qed.

(** * The claims *)

(** C1: for every chain length n >= 1, every chain produced by
    [build_neighbor_chains] holds exactly n states, no state occurs twice
    in it, its states are the entries the table stores under their names,
    and for every consecutive pair the name of the successor is listed in
    the neighbor list of the predecessor. *)
Theorem chains_are_simple_paths (limit : nat) (chain_length : Z) (σ : Store) :
  (length states_and_neighbors ≤ limit)%nat → 1 ≤ chain_length →
  ∃ chains,
    run_chains (build_neighbor_chains states_and_neighbors limit chain_length) σ = Ok chains ∧
    ∀ chain, chain ∈ chains →
      length chain = Z.to_nat chain_length ∧
      NoDup (name <$> chain) ∧
      (∀ s, s ∈ chain → dict_get states_and_neighbors (name s) = Some s) ∧
      ∀ i s t, chain !! i = Some s → chain !! S i = Some t →
        name t ∈ get_neighbors s.
Proof.
  intros Hlimit Hn. destruct (build_returns limit chain_length σ Hlimit) as (chains & Hrun & Href).
  exists chains. split; [done |]. intros chain Hchain.
  destruct (reference_chains_sound states_and_neighbors source_order (λ l, reflexivity l)
              limit chain_length chains chain states_and_neighbors_well_keyed Hn Href Hchain)
    as (Hlen & Hvals & Hnd & Hlink).
  split; [done |]. split; [done |]. split.
  - intros s Hs. apply dict_get_values; [apply states_and_neighbors_well_keyed |].
    rewrite Forall_forall in Hvals. by apply Hvals.
  - intros i s t Hs Ht. by eapply linked_lookup.
Qed.

Lemma chains_are_simple_paths_witness :
  (length states_and_neighbors ≤ 50)%nat ∧ 1 ≤ 3 ∧
  ∃ chains,
    run_chains (build_neighbor_chains states_and_neighbors 50 3) empty_store = Ok chains ∧
    ∀ chain, chain ∈ chains →
      length chain = Z.to_nat 3 ∧
      NoDup (name <$> chain) ∧
      (∀ s, s ∈ chain → dict_get states_and_neighbors (name s) = Some s) ∧
      ∀ i s t, chain !! i = Some s → chain !! S i = Some t →
        name t ∈ get_neighbors s.
Proof.
  split; [simpl; lia |]. split; [lia |].
  apply (chains_are_simple_paths 50 3 empty_store); [simpl; lia | lia].
Defined.

(** C2: for every chain length n >= 1 the enumeration is complete: every
    sequence of n pairwise distinct states of the table in which each
    successor's name is listed among its predecessor's neighbors is among
    the returned chains; for n = 1 the result is one single-state chain per
    state of the table; and a path and its reverse are both returned, as
    different chains, whenever both are such sequences. *)
Theorem every_simple_path_is_emitted (limit : nat) (chain_length : Z) (σ : Store) :
  (length states_and_neighbors ≤ limit)%nat → 1 ≤ chain_length →
  ∃ chains,
    run_chains (build_neighbor_chains states_and_neighbors limit chain_length) σ = Ok chains ∧
    (∀ chain, simple_path states_and_neighbors chain →
              length chain = Z.to_nat chain_length → chain ∈ chains) ∧
    (chain_length = 1 → chains = (λ s, [s]) <$> values states_and_neighbors) ∧
    (∀ chain, simple_path states_and_neighbors chain →
              simple_path states_and_neighbors (rev chain) →
              length chain = Z.to_nat chain_length →
              chain ∈ chains ∧ rev chain ∈ chains ∧ (2 ≤ chain_length → chain ≠ rev chain)).
Proof.
  intros Hlimit Hn. destruct (build_returns limit chain_length σ Hlimit) as (chains & Hrun & Href).
  exists chains. split; [done |].
  assert (Hcomplete : ∀ chain, simple_path states_and_neighbors chain →
                        length chain = Z.to_nat chain_length → chain ∈ chains).
  { intros chain Hpath Hlen.
    by apply (reference_chains_complete states_and_neighbors source_order
                (λ l, reflexivity l) limit chain_length chains chain
                states_and_neighbors_well_keyed Hn Href). }
  split; [done |]. split.
  - intros ->. rewrite reference_chains_one in Href; [by inversion Href |].
    simpl in Hlimit. lia.
  - intros chain Hpath Hrev Hlen. split; [by apply Hcomplete |]. split.
    + apply Hcomplete; [done |]. by rewrite length_rev.
    + intros Hn2. apply (simple_path_rev_neq _ _ Hpath). lia.
Qed.

Lemma every_simple_path_is_emitted_witness :
  (length states_and_neighbors ≤ 50)%nat ∧ 1 ≤ 2 ∧
  ∃ chains,
    run_chains (build_neighbor_chains states_and_neighbors 50 2) empty_store = Ok chains ∧
    (∀ chain, simple_path states_and_neighbors chain →
              length chain = Z.to_nat 2 → chain ∈ chains) ∧
    (2 = 1 → chains = (λ s, [s]) <$> values states_and_neighbors) ∧
    (∀ chain, simple_path states_and_neighbors chain →
              simple_path states_and_neighbors (rev chain) →
              length chain = Z.to_nat 2 →
              chain ∈ chains ∧ rev chain ∈ chains ∧ (2 ≤ 2 → chain ≠ rev chain)).
Proof.
  split; [simpl; lia |]. split; [lia |].
  apply (every_simple_path_is_emitted 50 2 empty_store); [simpl; lia | lia].
Defined.

(** C3: [traverse_neighbor_chain], which mutates the visited set it is
    given but hands every recursive branch a copy of it and of the partial
    chain, is observationally equivalent to the pure reference enumeration
    in which every call carries a visited set holding exactly the states of
    its own chain; a call changes no visited set but its own, so sibling
    branches never influence each other; and the emitted chains do not
    depend on the order in which the neighbors are explored. *)
Theorem traversal_refines_reference (graph : Table) (explore : list string → list string)
    (limit : nat) (chain_length : Z) (σ : Store) :
  (∀ l, explore l ≡ₚ l) →
  run_chains (build_neighbor_chains graph limit chain_length) σ
    = reference_chains graph source_order limit chain_length
  ∧ (∀ state states_seen chains chain max_depth σ0 σ' c emitted,
       chain_objs σ0 !! chain = Some c →
       seen_objs σ0 !! states_seen = Some (visited c) →
       chains_objs σ0 !! chains = Some emitted →
       traverse_neighbor_chain graph limit state states_seen chains chain max_depth σ0
         = Ok (tt, σ') →
       chains_from graph source_order limit state c max_depth
         = Ok (drop (length emitted) (read_chains σ' chains))
       ∧ ∀ other seen, other ≠ states_seen →
           seen_objs σ0 !! other = Some seen → seen_objs σ' !! other = Some seen)
  ∧ same_chains (reference_chains graph explore limit chain_length)
                (reference_chains graph source_order limit chain_length).
Proof.
  intros Hperm. split; [apply run_chains_reference |]. split.
  - intros state states_seen chains chain d σ0 σ' c emitted Hc HS Hem0 Hrun.
    pose proof (traverse_refines graph limit state states_seen chains chain d σ0 c Hc HS) as H.
    unfold agrees in H.
    destruct (chains_from graph source_order limit state c d) as [out|e];
      [| rewrite H in Hrun; discriminate].
    destruct H as ([] & σ1 & Hrun1 & Hec & Hes & Hem).
    rewrite Hrun in Hrun1. inversion Hrun1; subst σ1. split.
    + destruct Hem as (refs & Hchains & _ & Hout). f_equal.
      unfold read_chains. rewrite Hchains, list_lookup_alter_eq, Hem0. simpl.
      rewrite fmap_app, drop_app_length'; [done | by rewrite length_fmap].
    + intros other seen Hne Hseen. by eapply extends_lookup.
  - apply reference_chains_order. intros l. by rewrite Hperm.
Qed.

Lemma traversal_refines_reference_witness :
  (∀ l : list string, rev l ≡ₚ l) ∧
  run_chains (build_neighbor_chains line_graph 3 2) empty_store
    = reference_chains line_graph source_order 3 2
  ∧ (∀ state states_seen chains chain max_depth σ0 σ' c emitted,
       chain_objs σ0 !! chain = Some c →
       seen_objs σ0 !! states_seen = Some (visited c) →
       chains_objs σ0 !! chains = Some emitted →
       traverse_neighbor_chain line_graph 3 state states_seen chains chain max_depth σ0
         = Ok (tt, σ') →
       chains_from line_graph source_order 3 state c max_depth
         = Ok (drop (length emitted) (read_chains σ' chains))
       ∧ ∀ other seen, other ≠ states_seen →
           seen_objs σ0 !! other = Some seen → seen_objs σ' !! other = Some seen)
  ∧ same_chains (reference_chains line_graph (@rev string) 3 2)
                (reference_chains line_graph source_order 3 2).
Proof.
  split; [intros l; symmetry; apply Permutation_rev |].
  apply (traversal_refines_reference line_graph (@rev string) 3 2 empty_store).
  intros l. symmetry. apply Permutation_rev.
Defined.

(** C4: two runs of the enumerator on the same table with the same chain
    length return equal lists of chains, equal in content and in order:
    whatever store a run starts in it returns the same list, and a second
    run after the first returns another list object that denotes the same
    chains and leaves the chains of the first run as they were. *)
Theorem enumerator_is_deterministic (limit : nat) (chain_length : Z) (σ : Store) :
  (length states_and_neighbors ≤ limit)%nat →
  ∃ out chains1 σ1 chains2 σ2,
    build_neighbor_chains states_and_neighbors limit chain_length σ = Ok (chains1, σ1) ∧
    build_neighbor_chains states_and_neighbors limit chain_length σ1 = Ok (chains2, σ2) ∧
    chains1 ≠ chains2 ∧
    read_chains σ1 chains1 = out ∧
    read_chains σ2 chains2 = out ∧
    read_chains σ2 chains1 = out ∧
    ∀ σ', run_chains (build_neighbor_chains states_and_neighbors limit chain_length) σ'
          = Ok out.
Proof.
  intros Hlimit.
  destruct (build_returns limit chain_length σ Hlimit) as (out & _ & Href).
  pose proof (build_refines states_and_neighbors limit chain_length σ) as H1.
  unfold agrees in H1. rewrite Href in H1.
  destruct H1 as (chains1 & σ1 & Hrun1 & Hread1 & Hfresh1 & Hlt1 & _ & _ & Hstable1).
  pose proof (build_refines states_and_neighbors limit chain_length σ1) as H2.
  unfold agrees in H2. rewrite Href in H2.
  destruct H2 as (chains2 & σ2 & Hrun2 & Hread2 & Hfresh2 & _ & Hec2 & Hech2 & _).
  exists out, chains1, σ1, chains2, σ2.
  split; [done |]. split; [done |]. split; [lia |]. split; [done |]. split; [done |].
  split; [by apply Hstable1 |].
  intros σ'. by rewrite run_chains_reference.
Qed.

Lemma enumerator_is_deterministic_witness :
  (length states_and_neighbors ≤ 50)%nat ∧
  ∃ out chains1 σ1 chains2 σ2,
    build_neighbor_chains states_and_neighbors 50 2 empty_store = Ok (chains1, σ1) ∧
    build_neighbor_chains states_and_neighbors 50 2 σ1 = Ok (chains2, σ2) ∧
    chains1 ≠ chains2 ∧
    read_chains σ1 chains1 = out ∧
    read_chains σ2 chains2 = out ∧
    read_chains σ2 chains1 = out ∧
    ∀ σ', run_chains (build_neighbor_chains states_and_neighbors 50 2) σ' = Ok out.
Proof.
  split; [simpl; lia |].
  apply (enumerator_is_deterministic 50 2 empty_store). simpl; lia.
Defined.

(** C9: in the table [states_and_neighbors] every listed neighbor name is a
    key of the table, so the lookup made by the traversal succeeds; the
    adjacency is symmetric; and exactly Alaska and Hawaii have an empty
    neighbor list. *)
Theorem table_is_closed_and_symmetric :
  (∀ s neighbor_name,
     s ∈ values states_and_neighbors → neighbor_name ∈ get_neighbors s →
     neighbor_name ∈ keys states_and_neighbors ∧
     ∀ σ, ∃ t, lookup_state states_and_neighbors neighbor_name σ = Ok (t, σ)) ∧
  (∀ a b,
     a ∈ values states_and_neighbors → b ∈ values states_and_neighbors →
     name b ∈ get_neighbors a ↔ name a ∈ get_neighbors b) ∧
  (∀ s, s ∈ values states_and_neighbors →
        get_neighbors s = [] ↔ name s = "Alaska" ∨ name s = "Hawaii") ∧
  (∃ alaska hawaii,
     dict_get states_and_neighbors "Alaska" = Some alaska ∧ get_neighbors alaska = [] ∧
     dict_get states_and_neighbors "Hawaii" = Some hawaii ∧ get_neighbors hawaii = []).
Proof.
  split; [| split; [| split]].
  - intros s n Hs Hn.
    pose proof states_and_neighbors_closed as Hclosed. unfold closed in Hclosed.
    rewrite Forall_forall in Hclosed. specialize (Hclosed s Hs).
    rewrite Forall_forall in Hclosed. destruct (Hclosed n Hn) as [t Ht].
    split; [by eapply dict_get_key |].
    intros σ. exists t. unfold lookup_state. by rewrite Ht.
  - intros a b Ha Hb.
    pose proof states_and_neighbors_symmetric as Hsym. unfold symmetric in Hsym.
    rewrite Forall_forall in Hsym. specialize (Hsym a Ha).
    rewrite Forall_forall in Hsym. by apply Hsym.
  - assert (H : Forall (λ s, get_neighbors s = [] ↔ name s = "Alaska" ∨ name s = "Hawaii")
                       (values states_and_neighbors))
      by (apply (bool_decide_unpack _); vm_compute; exact I).
    rewrite Forall_forall in H. exact H.
  - eexists _, _. repeat split; reflexivity.
Qed.

(** C10: [build_neighbor_chains] returns for every integer chain length,
    zero and negative ones included: a call never nests deeper than there
    are states, since every nested call adds a state of the table to the
    visited set; and for a chain length <= 0 the result is the empty list,
    with no exception raised. *)
Theorem build_neighbor_chains_terminates (limit : nat) (chain_length : Z) (σ : Store) :
  (length states_and_neighbors ≤ limit)%nat →
  (∃ chains,
     run_chains (build_neighbor_chains states_and_neighbors limit chain_length) σ = Ok chains) ∧
  (chain_length ≤ 0 →
     run_chains (build_neighbor_chains states_and_neighbors limit chain_length) σ = Ok []) ∧
  (∀ state chain max_depth,
     state ∈ values states_and_neighbors → name state ∉ visited chain →
     (size (unvisited states_and_neighbors chain) ≤ limit)%nat →
     ∃ out, chains_from states_and_neighbors source_order limit state chain max_depth = Ok out).
Proof.
  intros Hlimit. split; [| split].
  - destruct (build_returns limit chain_length σ Hlimit) as (chains & Hrun & _). eauto.
  - intros Hn. by apply build_nonpositive.
  - intros state chain d. apply chains_from_returns; [done |].
    apply states_and_neighbors_closed.
Qed.

Lemma build_neighbor_chains_terminates_witness :
  (length states_and_neighbors ≤ 50)%nat ∧
  (∃ chains,
     run_chains (build_neighbor_chains states_and_neighbors 50 (-3)) empty_store = Ok chains) ∧
  (-3 ≤ 0 →
     run_chains (build_neighbor_chains states_and_neighbors 50 (-3)) empty_store = Ok []) ∧
  (∀ state chain max_depth,
     state ∈ values states_and_neighbors → name state ∉ visited chain →
     (size (unvisited states_and_neighbors chain) ≤ 50)%nat →
     ∃ out, chains_from states_and_neighbors source_order 50 state chain max_depth = Ok out).
Proof.
  split; [simpl; lia |].
  apply (build_neighbor_chains_terminates 50 (-3) empty_store). simpl; lia.
Defined.

(** ** Conforming words *)

Lemma is_upper_spec (c : ascii) : is_upper c = true ↔ (65 ≤ ord c ≤ 90)%N.
Proof. unfold is_upper. rewrite andb_true_iff, !N.leb_le. done. Qed.

Lemma conforming_spec (word_length : Z) (word : string) :
  conforming word_length word = true
  ↔ len word = word_length ∧ Forall (λ c, (65 ≤ ord c ≤ 90)%N) (chars word).
Proof.
  unfold conforming. rewrite andb_true_iff, bool_decide_eq_true, forallb_forall, Forall_forall.
  split; intros [Hlen Hall]; (split; [done |]); intros c Hc.
  - apply is_upper_spec, Hall. by apply list_elem_of_In.
  - apply is_upper_spec, Hall. by apply list_elem_of_In.
Qed.

(** Upper-casing leaves a string of letters A-Z as it is. *)
Lemma upper_letters (s : string) :
  Forall (λ c, (65 ≤ ord c ≤ 90)%N) (chars s) → upper s = s.
Proof.
  intros Hletters. unfold upper. rewrite <- (join_chars s) at 2. f_equal.
  induction Hletters as [|c l Hc _ IH]; [done |].
  cbn [map]. rewrite IH. f_equal. unfold char_upper, is_lower.
  destruct (N.leb_spec 97 (ord c)); [lia | done].
Qed.

Lemma elem_of_admitted_words (word_length : Z) (word_file : list string) (word : string) :
  word ∈ admitted_words word_length word_file
  ↔ ∃ line, line ∈ word_file ∧ word = upper (strip line) ∧ conforming word_length word = true.
Proof.
  unfold admitted_words. rewrite list_elem_of_In, filter_In, in_map_iff. split.
  - intros [(line & <- & Hline) Hconf]. exists line. by rewrite list_elem_of_In.
  - intros (line & Hline & -> & Hconf). split; [|done].
    exists line. by rewrite <- list_elem_of_In.
Qed.

Lemma elem_of_build_index (word_length : Z) (word_file : list string) (word : string) :
  (∃ key words, build_index word_length word_file !! key = Some words ∧ word ∈ words)
  ↔ word ∈ admitted_words word_length word_file.
Proof.
  split.
  - intros (key & words & Hkey & Hword).
    pose proof (build_index_lookup word_length word_file key) as Hlookup.
    rewrite Hkey in Hlookup. simpl in Hlookup. rewrite Hlookup in Hword.
    apply list_elem_of_In, filter_In in Hword as [Hword _]. by apply list_elem_of_In.
  - intros Hword.
    pose proof (build_index_lookup word_length word_file (generate_key word)) as Hlookup.
    assert (Hin : word ∈ default [] (build_index word_length word_file !! generate_key word)).
    { rewrite Hlookup. apply list_elem_of_In, filter_In. split; [by apply list_elem_of_In |].
      by apply bool_decide_eq_true. }
    destruct (build_index word_length word_file !! generate_key word) as [words|] eqn:Hkey;
      [| inversion Hin].
    by exists (generate_key word), words.
Qed.

(** C5: a line of the word file adds a word to the anagram index if and
    only if its stripped, upper-cased form has exactly 2 x chain_length
    characters, all of them letters A-Z; then that form is appended to the
    list under its key.  Every other line leaves the index as it was; the
    loop body has no failing step.  Hence the index holds exactly the
    normalised conforming lines. *)
Theorem word_filter (chain_length : Z) (anagrams : gmap string (list string)) (line : string) :
  (index_line (chain_length * 2) anagrams line ≠ anagrams
   ↔ len (upper (strip line)) = 2 * chain_length ∧
     Forall (λ c, (65 ≤ ord c ≤ 90)%N) (chars (upper (strip line)))) ∧
  (index_line (chain_length * 2) anagrams line ≠ anagrams →
   index_line (chain_length * 2) anagrams line
   = <[generate_key (upper (strip line)) :=
         default [] (anagrams !! generate_key (upper (strip line))) ++ [upper (strip line)]]>
       anagrams) ∧
  (∀ word_file word,
     (∃ key words, build_index (chain_length * 2) word_file !! key = Some words ∧ word ∈ words)
     ↔ ∃ line, line ∈ word_file ∧ word = upper (strip line) ∧
               len word = 2 * chain_length ∧
               Forall (λ c, (65 ≤ ord c ≤ 90)%N) (chars word)).
Proof.
  rewrite index_line_conforming. cbv zeta.
  replace (2 * chain_length) with (chain_length * 2) by lia.
  split; [| split].
  - rewrite <- conforming_spec.
    destruct (conforming (chain_length * 2) (upper (strip line))).
    + split; [done |]. intros _. apply insert_snoc_changes.
    + split; [done | discriminate].
  - destruct (conforming (chain_length * 2) (upper (strip line))); done.
  - intros word_file word. rewrite elem_of_build_index, elem_of_admitted_words.
    split; intros (l & Hl & Hw & Hconf); exists l; (split; [done |]); (split; [done |]).
    + by apply conforming_spec.
    + by apply conforming_spec.
Qed.

(** C6: building the index and looking a string up round-trip: the lookup
    of a query returns exactly the admitted words whose key (the sorted,
    upper-cased letters computed by [generate_key]) is the key of the
    query, in file order; the key of an admitted word is its letters in
    sorted order; so for every admitted word the lookup of any permutation
    of its letters returns a list that contains the word. *)
Theorem index_lookup_round_trip (word_length : Z) (word_file : list string) :
  (∀ query,
     lookup_words (build_index word_length word_file) query
     = List.filter (λ w, bool_decide (generate_key w = generate_key query))
                   (admitted_words word_length word_file)) ∧
  (∀ word,
     word ∈ admitted_words word_length word_file →
     generate_key word = join (sort (chars word)) ∧
     StronglySorted char_le (chars (generate_key word)) ∧
     chars (generate_key word) ≡ₚ chars word) ∧
  (∀ word query,
     word ∈ admitted_words word_length word_file → chars query ≡ₚ chars word →
     word ∈ lookup_words (build_index word_length word_file) query).
Proof.
  assert (Hlookup : ∀ query,
            lookup_words (build_index word_length word_file) query
            = List.filter (λ w, bool_decide (generate_key w = generate_key query))
                          (admitted_words word_length word_file))
    by (intros query; apply build_index_lookup).
  split; [done |]. split.
  - intros word Hword.
    apply elem_of_admitted_words in Hword as (line & _ & _ & Hconf).
    apply conforming_spec in Hconf as [_ Hletters].
    assert (Hkey : generate_key word = join (sort (chars word))).
    { unfold generate_key. apply upper_letters. rewrite chars_join.
      unfold sort. by rewrite merge_sort_Permutation. }
    rewrite Hkey, chars_join. split; [done |]. split.
    + apply StronglySorted_merge_sort; apply _.
    + apply merge_sort_Permutation.
  - intros word query Hword Hperm. rewrite Hlookup.
    apply list_elem_of_In, filter_In. split; [by apply list_elem_of_In |].
    apply bool_decide_eq_true. symmetry. by apply generate_key_permutation.
Qed.

(** The example of the specification: an index built from ALBANIA alone
    returns it for a permutation of its letters. *)
Example lookup_albania :
  lookup_words (build_index 7 ["ALBANIA"]) "NAALIAB" = ["ALBANIA"].
Proof. vm_compute. reflexivity. Qed.

(** C8: every matched word occurs exactly once in the final listing, however
    many chains have a key that matches it: the aggregate is the set of the
    matched words, while every chain whose key is in the index prints its
    own line with its own matches. *)
Theorem aggregate_lists_each_word_once (anagrams : gmap string (list string))
    (chains : list (list State)) :
  (∀ word, word ∈ snd (report_chains anagrams chains) ↔ matched anagrams chains word) ∧
  (∀ word, matched anagrams chains word →
     length (List.filter (λ w, bool_decide (w = word))
                         (all_words (snd (report_chains anagrams chains)))) = 1%nat) ∧
  fst (report_chains anagrams chains)
  = omap (λ chain, report_line (map get_abbr chain) <$> anagrams !! chain_key chain) chains.
Proof.
  destruct (fold_report_chain anagrams chains [] ∅) as [Hprinted Htotal].
  assert (Hiff : ∀ word, word ∈ snd (report_chains anagrams chains)
                         ↔ matched anagrams chains word).
  { intros word. unfold report_chains. rewrite Htotal. set_solver. }
  split; [done |]. split; [| done].
  intros word Hword. apply NoDup_count_one.
  - unfold all_words. apply NoDup_elements.
  - unfold all_words. apply elem_of_elements. by apply Hiff.
Qed.

(** ** The command line *)

Lemma report_no_chains (anagrams : gmap string (list string)) :
  report_chains anagrams [] = ([], ∅).
Proof. reflexivity. Qed.

Lemma summary_empty : summary ∅ = ["No words found."].
Proof. unfold summary. by rewrite size_empty. Qed.

Lemma main_invalid_integer (argv : list string) (files : string → option (list string))
    (limit : nat) (arg : string) :
  argv !! 1%nat = Some arg → int arg = None →
  parse_args argv = Raise ValueError ∧ main argv files limit = Raise ValueError.
Proof.
  intros Harg Hint. unfold main, parse_args. by rewrite Harg, Hint.
Qed.

Lemma main_nonpositive (argv : list string) (files : string → option (list string))
    (limit : nat) (arg : string) (chain_length : Z) :
  argv !! 1%nat = Some arg → int arg = Some chain_length → chain_length ≤ 0 →
  (length states_and_neighbors ≤ limit)%nat →
  main argv files limit
  = match files (default "/usr/share/dict/words" (argv !! 2%nat)) with
    | None => Raise (FileNotFoundError (default "/usr/share/dict/words" (argv !! 2%nat)))
    | Some _ => Ok ["No words found."]
    end.
Proof.
  intros Harg Hint Hn Hlimit. unfold main, parse_args. rewrite Harg, Hint.
  rewrite (build_nonpositive limit chain_length empty_store Hlimit Hn).
  destruct (files _) as [word_file|]; [|done].
  by rewrite report_no_chains, summary_empty.
Qed.

(** C7, as the code has it: the chain-length argument is converted with
    [int] and nothing else checks it.  A text that is no integer makes
    [int] raise [ValueError], which is not caught: the process ends with
    that exception before any enumeration.  A chain length <= 0 is not an
    error: the enumerator runs and returns no chain, the word file is
    opened, and the program prints that no words were found. *)
Theorem argument_handling (argv : list string) (files : string → option (list string))
    (limit : nat) (arg : string) :
  argv !! 1%nat = Some arg →
  (int arg = None →
     parse_args argv = Raise ValueError ∧ main argv files limit = Raise ValueError) ∧
  (∀ chain_length,
     int arg = Some chain_length → chain_length ≤ 0 →
     (length states_and_neighbors ≤ limit)%nat →
     parse_args argv = Ok (chain_length, default "/usr/share/dict/words" (argv !! 2%nat)) ∧
     run_chains (build_neighbor_chains states_and_neighbors limit chain_length) empty_store
       = Ok [] ∧
     main argv files limit
     = match files (default "/usr/share/dict/words" (argv !! 2%nat)) with
       | None => Raise (FileNotFoundError (default "/usr/share/dict/words" (argv !! 2%nat)))
       | Some _ => Ok ["No words found."]
       end).
Proof.
  intros Harg. split.
  - intros Hint. by apply (main_invalid_integer argv files limit arg).
  - intros n Hint Hn Hlimit. split; [| split].
    + unfold parse_args. by rewrite Harg, Hint.
    + by apply build_nonpositive.
    + by apply (main_nonpositive argv files limit arg n).
Qed.

Lemma argument_handling_witness :
  ["state-chain-words.py"; "0"] !! 1%nat = Some "0" ∧
  (int "0" = None →
     parse_args ["state-chain-words.py"; "0"] = Raise ValueError ∧
     main ["state-chain-words.py"; "0"] (λ _, Some []) 50 = Raise ValueError) ∧
  (∀ chain_length,
     int "0" = Some chain_length → chain_length ≤ 0 →
     (length states_and_neighbors ≤ 50)%nat →
     parse_args ["state-chain-words.py"; "0"]
       = Ok (chain_length,
             default "/usr/share/dict/words" (["state-chain-words.py"; "0"] !! 2%nat)) ∧
     run_chains (build_neighbor_chains states_and_neighbors 50 chain_length) empty_store
       = Ok [] ∧
     main ["state-chain-words.py"; "0"] (λ _, Some []) 50 = Ok ["No words found."]).
Proof.
  split; [reflexivity |].
  apply (argument_handling ["state-chain-words.py"; "0"] (λ _, Some []) 50 "0").
  reflexivity.
Defined.

(** C7 as stated fails: with the argument 0 the program does not stop with
    an error at all, it runs to completion; and with an argument that is
    no integer the exception that ends it is the [ValueError] of [int]
    itself. *)
Lemma nonpositive_chain_length_is_accepted :
  main ["state-chain-words.py"; "0"] (λ _, Some []) 50 = Ok ["No words found."] ∧
  (¬ ∃ e, main ["state-chain-words.py"; "0"] (λ _, Some []) 50 = Raise e) ∧
  main ["state-chain-words.py"; "four"] (λ _, Some []) 50 = Raise ValueError.
Proof.
  assert (Hmain : main ["state-chain-words.py"; "0"] (λ _, Some []) 50
                  = Ok ["No words found."]).
  { rewrite (main_nonpositive _ _ 50 "0" 0); [done | done | done | lia | simpl; lia]. }
  split; [done |]. split.
  - intros [e He]. rewrite Hmain in He. discriminate.
  - apply (main_invalid_integer _ _ 50 "four"); reflexivity.
Qed.

(** ** Runs on concrete inputs *)

(** The three-state line A - B - C: chains of length 2 are the four
    directed edges, in table order. *)
Example line_graph_pairs :
  (λ chains, map (map name) chains)
    <$> match run_chains (build_neighbor_chains line_graph 3 2) empty_store with
        | Ok chains => Some chains
        | Raise _ => None
        end
  = Some [["A"; "B"]; ["B"; "A"]; ["B"; "C"]; ["C"; "B"]].
Proof. vm_compute. reflexivity. Qed.

(** Three states in a line admit two chains of length 3 and none of length 4. *)
Example line_graph_triples :
  (λ chains, map (map name) chains)
    <$> match run_chains (build_neighbor_chains line_graph 3 3) empty_store with
        | Ok chains => Some chains
        | Raise _ => None
        end
  = Some [["A"; "B"; "C"]; ["C"; "B"; "A"]]
  ∧ run_chains (build_neighbor_chains line_graph 4 4) empty_store = Ok [].
Proof. vm_compute. split; reflexivity. Qed.

(** Too small a nesting limit is a [RecursionError]. *)
Example line_graph_limit :
  run_chains (build_neighbor_chains line_graph 1 2) empty_store = Raise RecursionError.
Proof. vm_compute. reflexivity. Qed.

(** The table of the states has 50 chains of length 1 and 216 of length 2. *)
Example states_chain_counts :
  (length <$> match run_chains (build_neighbor_chains states_and_neighbors 50 1) empty_store with
              | Ok chains => Some chains
              | Raise _ => None
              end) = Some 50%nat
  ∧ (length <$> match run_chains (build_neighbor_chains states_and_neighbors 50 2) empty_store with
                | Ok chains => Some chains
                | Raise _ => None
                end) = Some 216%nat.
Proof. vm_compute. split; reflexivity. Qed.

(** A run of the whole program: four chains share the key of SLAM and
    ALMS; each prints its own line, and the final listing has each word
    once although ALMS is in the word file twice. *)
Example main_sample :
  ∃ printed,
    main ["state-chain-words.py"; "2"; "words"]
         (λ path, if bool_decide (path = "words")
                  then Some ["slam"; "Alms "; " dog"; "it's"; "alms"]
                  else None) 50
    = Ok printed ∧
    take 6 printed
    = ["AL, MS : SLAM, ALMS, ALMS"; "LA, MS : SLAM, ALMS, ALMS";
       "MS, LA : SLAM, ALMS, ALMS"; "MS, AL : SLAM, ALMS, ALMS";
       ""; "All words:"] ∧
    drop 6 printed ≡ₚ ["    ALMS"; "    SLAM"].
Proof.
  eexists. split; [vm_compute; reflexivity |]. split; [reflexivity |].
  apply (bool_decide_unpack _). vm_compute. exact I.
Qed.

(** The key is sorted before it is upper-cased: a query in mixed case has
    a key that is not in sorted order. *)
Example generate_key_mixed_case :
  generate_key "Ba" = "BA" ∧ generate_key "AB" = "AB" ∧ generate_key "slam" = "ALMS".
Proof. vm_compute. repeat split; reflexivity. Qed.

(** [int] on decimal literals. *)
Example int_samples :
  int " -1_000 " = Some (-1000) ∧ int "+7" = Some 7 ∧ int "007" = Some 7 ∧
  int "four" = None ∧ int "" = None ∧ int "1__0" = None ∧ int "4.0" = None.
Proof. vm_compute. repeat split; reflexivity. Qed.

(** * Further properties of the enumerator *)

(** ** Exceptions of the traversal *)

Lemma collect_Raise_inv {A B} (l : list A) (f : A → Result (list B)) e :
  collect l f = Raise e → ∃ x, x ∈ l ∧ f x = Raise e.
Proof.
  induction l as [|x l IH]; simpl; [done |].
  destruct (f x) as [ys|e'] eqn:Hfx.
  - destruct (collect l f) as [zs|e'']; [done |].
    intros Heq. inversion Heq; subst. destruct IH as (x' & Hx' & Hf); [done |].
    exists x'. split; [by right | done].
  - intros Heq. inversion Heq; subst. exists x. split; [left | done].
Qed.

(** The traversal raises nothing but [RecursionError] and the [KeyError] of
    a name that has no entry in the table. *)
Lemma chains_from_Raise (graph : Table) (explore : list string → list string) (limit : nat) :
  ∀ state chain max_depth e,
    chains_from graph explore limit state chain max_depth = Raise e →
    e = RecursionError ∨ ∃ key, e = KeyError key ∧ dict_get graph key = None.
Proof.
  induction limit as [|limit IH]; intros state chain d e H; simpl in H.
  - left. by inversion H.
  - destruct (d =? 0); [done |].
    apply collect_Raise_inv in H as (n & _ & Hn).
    destruct (dict_get graph n) as [nb|] eqn:Hnb.
    + case_bool_decide; [done | by eapply IH].
    + right. exists n. by inversion Hn.
Qed.

(** With one nested call per state the limit is never hit, whether or not
    the neighbor names resolve. *)
Lemma chains_from_within_limit (graph : Table) (explore : list string → list string)
    (limit : nat) :
  ∀ state chain max_depth,
    state ∈ values graph → name state ∉ visited chain →
    (size (unvisited graph chain) ≤ limit)%nat →
    chains_from graph explore limit state chain max_depth ≠ Raise RecursionError.
Proof.
  induction limit as [|limit IH]; intros state chain d Hs Hfresh Hsize H.
  - pose proof (unvisited_snoc_size graph source_order (λ l, reflexivity l) chain state Hs Hfresh). lia.
  - simpl in H. destruct (d =? 0); [done |].
    apply collect_Raise_inv in H as (n & _ & Hn).
    destruct (dict_get graph n) as [nb|] eqn:Hnb; [|done].
    case_bool_decide as Hseen; [done |].
    apply (IH nb (chain ++ [state]) (d - 1)); [by eapply dict_get_elem_of | done | | done].
    pose proof (unvisited_snoc_size graph source_order (λ l, reflexivity l) chain state Hs Hfresh). lia.
Qed.

Lemma unvisited_nil_size (graph : Table) : (size (unvisited graph []) ≤ length graph)%nat.
Proof.
  pose proof (size_visited_le (values graph)) as Hle.
  unfold values in Hle at 2. rewrite length_map in Hle.
  assert (Hsub : unvisited graph [] ⊆ visited (values graph))
    by (unfold unvisited; set_solver).
  apply subseteq_size in Hsub. lia.
Qed.

Lemma reference_chains_Raise (graph : Table) (limit : nat) (chain_length : Z) e :
  (length graph ≤ limit)%nat →
  reference_chains graph source_order limit chain_length = Raise e →
  ∃ key, e = KeyError key ∧ dict_get graph key = None.
Proof.
  intros Hlimit H. apply collect_Raise_inv in H as (s & Hs & H).
  destruct (chains_from_Raise _ _ _ _ _ _ _ H) as [-> | Hkey]; [| done].
  exfalso. revert H. apply chains_from_within_limit; [done | |].
  - unfold visited. simpl. set_solver.
  - pose proof (unvisited_nil_size graph). lia.
Qed.

(** A dangling neighbor name is reached by every run but the one for
    chains of length 1. *)
Lemma reference_chains_dangling (graph : Table) (limit : nat) (chain_length : Z) s key out :
  s ∈ values graph → key ∈ get_neighbors s → dict_get graph key = None →
  chain_length ≠ 1 →
  reference_chains graph source_order limit chain_length = Ok out → False.
Proof.
  intros Hs Hkey Hnone Hn Hout.
  destruct (collect_Ok_inv _ _ _ _ Hout Hs) as [ys Hys].
  destruct limit as [|limit]; [done |]. simpl in Hys.
  destruct (Z.eqb_spec (chain_length - 1) 0) as [|_]; [lia |].
  destruct (collect_Ok_inv _ _ _ _ Hys Hkey) as [zs Hzs].
  by rewrite Hnone in Hzs.
Qed.

(** X1: a [KeyError] that ends [build_neighbor_chains] names a neighbor name
    that has no entry in the table; with a limit of one nested call per
    table entry no other exception ends it. *)
Theorem key_error_names_missing_entry (graph : Table) (limit : nat) (chain_length : Z)
    (σ : Store) (e : Exception) :
  run_chains (build_neighbor_chains graph limit chain_length) σ = Raise e →
  (∀ key, e = KeyError key → dict_get graph key = None) ∧
  ((length graph ≤ limit)%nat → ∃ key, e = KeyError key ∧ dict_get graph key = None).
Proof.
  rewrite run_chains_reference. intros H. split.
  - intros key ->. apply collect_Raise_inv in H as (s & _ & H).
    destruct (chains_from_Raise _ _ _ _ _ _ _ H) as [? | (k & Hk & Hnone)]; [done |].
    by inversion Hk; subst.
  - intros Hlimit. by eapply reference_chains_Raise.
Qed.

Lemma key_error_names_missing_entry_witness :
  run_chains (build_neighbor_chains dangling_graph 1 2) empty_store = Raise (KeyError "B") ∧
  (∀ key, KeyError "B" = KeyError key → dict_get dangling_graph key = None) ∧
  ((length dangling_graph ≤ 1)%nat →
   ∃ key, KeyError "B" = KeyError key ∧ dict_get dangling_graph key = None).
Proof.
  split; [vm_compute; reflexivity |].
  apply (key_error_names_missing_entry dangling_graph 1 2 empty_store (KeyError "B")).
  vm_compute. reflexivity.
Defined.

(** X2: only chains of length 1 are built without any lookup.  For any
    table, a run for length 1 returns one single-state chain per entry,
    dangling neighbor names or not; for every other chain length one
    dangling neighbor name anywhere in the table ends the run with the
    [KeyError] of a missing name, and no list is returned. *)
Theorem dangling_neighbor_fails_unless_length_one (graph : Table) (limit : nat)
    (chain_length : Z) (σ : Store) (s : State) (key : string) :
  s ∈ values graph → key ∈ get_neighbors s → dict_get graph key = None →
  (length graph ≤ limit)%nat →
  (chain_length = 1 →
   run_chains (build_neighbor_chains graph limit chain_length) σ
   = Ok ((λ s, [s]) <$> values graph)) ∧
  (chain_length ≠ 1 →
   ∃ missing,
     run_chains (build_neighbor_chains graph limit chain_length) σ = Raise (KeyError missing)
     ∧ dict_get graph missing = None).
Proof.
  intros Hs Hkey Hnone Hlimit. rewrite run_chains_reference. split.
  - intros ->. apply reference_chains_one.
    apply list_elem_of_fmap in Hs as (kv & _ & Hkv).
    destruct graph; [inversion Hkv | simpl in Hlimit; lia].
  - intros Hn.
    destruct (reference_chains graph source_order limit chain_length) as [out|e] eqn:Href.
    + exfalso. by eapply (reference_chains_dangling graph limit chain_length s key out).
    + destruct (reference_chains_Raise graph limit chain_length e Hlimit Href)
        as (missing & -> & Hmissing).
      by exists missing.
Qed.

Lemma dangling_neighbor_fails_unless_length_one_witness :
  mkState "A" "AA" ["B"] ∈ values dangling_graph ∧
  "B" ∈ get_neighbors (mkState "A" "AA" ["B"]) ∧
  dict_get dangling_graph "B" = None ∧
  (length dangling_graph ≤ 1)%nat ∧
  (3 = 1 →
   run_chains (build_neighbor_chains dangling_graph 1 3) empty_store
   = Ok ((λ s, [s]) <$> values dangling_graph)) ∧
  (3 ≠ 1 →
   ∃ missing,
     run_chains (build_neighbor_chains dangling_graph 1 3) empty_store
     = Raise (KeyError missing)
     ∧ dict_get dangling_graph missing = None).
Proof.
  assert (Hs : mkState "A" "AA" ["B"] ∈ values dangling_graph) by (simpl; left).
  assert (Hk : "B" ∈ get_neighbors (mkState "A" "AA" ["B"])) by (simpl; left).
  split; [done |]. split; [done |]. split; [reflexivity |]. split; [simpl; lia |].
  apply (dangling_neighbor_fails_unless_length_one dangling_graph 1 3 empty_store
           (mkState "A" "AA" ["B"]) "B" Hs Hk); [reflexivity | simpl; lia].
Defined.

(** ** Every path once *)

Lemma NoDup_count_occ_one {A} `{EqDecision A} (l : list A) (x : A) :
  NoDup l → x ∈ l → length (List.filter (λ y, bool_decide (y = x)) l) = 1%nat.
Proof.
  induction 1 as [|y l Hy Hnd IH]; intros Hx; [inversion Hx |].
  simpl. apply elem_of_cons in Hx as [-> | Hx].
  - rewrite bool_decide_eq_true_2 by done. simpl. f_equal.
    clear IH Hnd. induction l as [|z l IH]; [done |].
    apply not_elem_of_cons in Hy as [Hne Hy]. simpl.
    rewrite bool_decide_eq_false_2 by done. by apply IH.
  - rewrite bool_decide_eq_false_2; [by apply IH |]. by intros ->.
Qed.

Lemma collect_NoDup {A B} (l : list A) (f : A → Result (list B)) out :
  NoDup l → collect l f = Ok out →
  (∀ x ys, x ∈ l → f x = Ok ys → NoDup ys) →
  (∀ x x' ys ys' y, x ∈ l → x' ∈ l → x ≠ x' →
                    f x = Ok ys → f x' = Ok ys' → y ∈ ys → y ∈ ys' → False) →
  NoDup out.
Proof.
  intros Hnd. revert out. induction Hnd as [|x l Hx Hnd IH]; intros out H Heach Hdisj.
  - simpl in H. inversion H. constructor.
  - simpl in H. destruct (f x) as [ys|] eqn:Hfx; [|done].
    destruct (collect l f) as [zs|] eqn:Hrest; [|done].
    inversion H; subst. apply NoDup_app. split; [| split].
    + apply (Heach x); [left | done].
    + intros y Hy Hz.
      apply (collect_elem_of _ _ _ _ Hrest) in Hz as (x' & ys' & Hx' & Hf' & Hy').
      apply (Hdisj x x' ys ys' y); try done; [left | by right | by intros ->].
    + apply (IH zs eq_refl).
      * intros x' ys' Hx'. apply Heach. by right.
      * intros x1 x2 ys1 ys2 y H1 H2. apply Hdisj; by right.
Qed.

Lemma chains_from_NoDup (graph : Table) (limit : nat) :
  well_keyed graph → distinct_neighbors graph →
  ∀ state chain max_depth out,
    state ∈ values graph →
    chains_from graph source_order limit state chain max_depth = Ok out → NoDup out.
Proof.
  intros Hwk Hdn. induction limit as [|limit IH]; intros state chain d out Hs H; [done |].
  simpl in H. destruct (Z.eqb_spec d 0) as [-> | Hne].
  - inversion H. apply NoDup_singleton.
  - unfold source_order in H at 1.
    apply (collect_NoDup _ _ _ (proj1 (Forall_forall _ _) Hdn state Hs) H).
    + intros n ys _ Hn. destruct (dict_get graph n) as [nb|] eqn:Hnb; [|done].
      case_bool_decide; [inversion Hn; constructor |].
      apply (IH nb (chain ++ [state]) (d - 1)); [by eapply dict_get_elem_of | done].
    + intros n n' ys ys' y _ _ Hnn Hn Hn' Hy Hy'.
      destruct (dict_get graph n) as [nb|] eqn:Hnb; [|done].
      destruct (dict_get graph n') as [nb'|] eqn:Hnb'; [|done].
      destruct (bool_decide (name nb ∈ visited (chain ++ [state])));
        [injection Hn as <-; inversion Hy |].
      destruct (bool_decide (name nb' ∈ visited (chain ++ [state])));
        [injection Hn' as <-; inversion Hy' |].
      destruct (Z.ltb_spec (d - 1) 0) as [Hneg | Hpos].
      { apply chains_from_negative in Hn; [subst; inversion Hy | done]. }
      destruct (chains_from_sound graph source_order (λ l, reflexivity l) limit Hwk
                  nb (chain ++ [state]) (d - 1) ys y Hpos Hn Hy) as (rest & -> & _).
      destruct (chains_from_sound graph source_order (λ l, reflexivity l) limit Hwk
                  nb' (chain ++ [state]) (d - 1) ys' _ Hpos Hn' Hy') as (rest' & Heq & _).
      apply app_inv_head in Heq. injection Heq as Heq _. subst nb'.
      apply (dict_get_name _ _ _ Hwk) in Hnb, Hnb'. congruence.
Qed.

Lemma well_keyed_names (graph : Table) :
  well_keyed graph → name <$> values graph = keys graph.
Proof.
  intros [_ Hk]. unfold keys, values.
  induction graph as [|[k v] g IH]; [done |].
  apply Forall_cons in Hk as [Hkv Hk]. simpl in Hkv.
  cbn [map fmap list_fmap fst snd]. f_equal; [done | by apply IH].
Qed.

Lemma well_keyed_NoDup_values (graph : Table) : well_keyed graph → NoDup (values graph).
Proof.
  intros Hwk. apply (NoDup_fmap_1 name). rewrite (well_keyed_names _ Hwk). apply Hwk.
Qed.

Lemma reference_chains_NoDup (graph : Table) (limit : nat) (chain_length : Z) out :
  well_keyed graph → distinct_neighbors graph →
  reference_chains graph source_order limit chain_length = Ok out → NoDup out.
Proof.
  intros Hwk Hdn H.
  apply (collect_NoDup _ _ _ (well_keyed_NoDup_values graph Hwk) H).
  - intros s ys Hs. by apply chains_from_NoDup.
  - intros s s' ys ys' y _ _ Hss Hys Hys' Hy Hy'.
    destruct (Z.ltb_spec (chain_length - 1) 0) as [Hneg | Hpos].
    { apply chains_from_negative in Hys; [subst; inversion Hy | done]. }
    destruct (chains_from_sound graph source_order (λ l, reflexivity l) limit Hwk
                s [] (chain_length - 1) ys y Hpos Hys Hy) as (rest & -> & _).
    destruct (chains_from_sound graph source_order (λ l, reflexivity l) limit Hwk
                s' [] (chain_length - 1) ys' _ Hpos Hys' Hy') as (rest' & Heq & _).
    simpl in Heq. injection Heq as Heq _. done.
Qed.

Lemma states_and_neighbors_distinct_neighbors : distinct_neighbors states_and_neighbors.
Proof. apply (bool_decide_unpack _). vm_compute. exact I. Qed.

(** X3: no chain is returned twice: for every chain length the list
    returned for the table of the states has no repeated element, so with
    C1 and C2 it lists every simple path of that length exactly once. *)
Theorem every_chain_is_emitted_once (limit : nat) (chain_length : Z) (σ : Store) :
  (length states_and_neighbors ≤ limit)%nat →
  ∃ chains,
    run_chains (build_neighbor_chains states_and_neighbors limit chain_length) σ = Ok chains ∧
    NoDup chains ∧
    (1 ≤ chain_length →
     ∀ chain, simple_path states_and_neighbors chain →
              length chain = Z.to_nat chain_length →
              length (List.filter (λ c, bool_decide (c = chain)) chains) = 1%nat).
Proof.
  intros Hlimit. destruct (build_returns limit chain_length σ Hlimit) as (chains & Hrun & Href).
  exists chains. split; [done |].
  assert (Hnd : NoDup chains).
  { by apply (reference_chains_NoDup states_and_neighbors limit chain_length chains
                states_and_neighbors_well_keyed states_and_neighbors_distinct_neighbors). }
  split; [done |]. intros Hn chain Hpath Hlen.
  apply NoDup_count_occ_one; [done |].
  by apply (reference_chains_complete states_and_neighbors source_order
              (λ l, reflexivity l) limit chain_length chains chain
              states_and_neighbors_well_keyed Hn Href).
Qed.

Lemma every_chain_is_emitted_once_witness :
  (length states_and_neighbors ≤ 50)%nat ∧
  ∃ chains,
    run_chains (build_neighbor_chains states_and_neighbors 50 3) empty_store = Ok chains ∧
    NoDup chains ∧
    (1 ≤ 3 →
     ∀ chain, simple_path states_and_neighbors chain →
              length chain = Z.to_nat 3 →
              length (List.filter (λ c, bool_decide (c = chain)) chains) = 1%nat).
Proof.
  split; [simpl; lia |].
  apply (every_chain_is_emitted_once 50 3 empty_store). simpl; lia.
Defined.

(** ** Reversal, extension and the longest chains *)

Lemma rev_reverse {A} (l : list A) : rev l = reverse l.
Proof. unfold reverse. apply rev_alt. Qed.

Lemma linked_app (l1 l2 : list State) :
  linked (l1 ++ l2)
  ↔ linked l1 ∧ linked l2 ∧
    ∀ u t, last l1 = Some u → head l2 = Some t → name t ∈ get_neighbors u.
Proof.
  induction l1 as [|a [|b l1] IH].
  - simpl. split; [intros H; split; [done | split; [done | done]] | tauto].
  - simpl. destruct l2 as [|t l2]; simpl.
    + split; [intros _; split; [done | split; [done | done]] | done].
    + split.
      * intros [Hat Hl2]. split; [done |]. split; [done |].
        intros u t' Hu Ht'. by simplify_eq.
      * intros (_ & Hl2 & Hb). split; [by apply Hb | done].
  - change (linked ((a :: b :: l1) ++ l2))
      with (name b ∈ get_neighbors a ∧ linked ((b :: l1) ++ l2)).
    change (linked (a :: b :: l1)) with (name b ∈ get_neighbors a ∧ linked (b :: l1)).
    rewrite IH, last_cons_cons. tauto.
Qed.

Lemma linked_rev (graph : Table) (c : list State) :
  symmetric graph → Forall (λ s, s ∈ values graph) c → linked c → linked (rev c).
Proof.
  intros Hsym. unfold symmetric in Hsym.
  induction c as [|a c IH]; intros Hvals Hlink; [done |].
  apply Forall_cons in Hvals as [Ha Hvals].
  simpl. apply linked_app. split; [| split; [done |]].
  - apply IH; [done |]. destruct c; [done | by destruct Hlink].
  - intros u t Hu Ht. simpl in Ht. injection Ht as <-.
    rewrite rev_reverse, last_reverse in Hu.
    destruct c as [|u' c]; [done |]. simpl in Hu. injection Hu as ->.
    destruct Hlink as [Hau _]. apply Forall_cons in Hvals as [Hu _].
    rewrite Forall_forall in Hsym. specialize (Hsym a Ha).
    rewrite Forall_forall in Hsym. by apply Hsym.
Qed.

Lemma simple_path_rev (graph : Table) (c : list State) :
  symmetric graph → simple_path graph c → simple_path graph (rev c).
Proof.
  intros Hsym (Hvals & Hnd & Hlink). split; [| split].
  - rewrite rev_reverse. by apply Forall_reverse.
  - rewrite rev_reverse, fmap_reverse. by rewrite reverse_Permutation.
  - by apply (linked_rev graph).
Qed.

Lemma simple_path_snoc (graph : Table) (c : list State) (t : State) :
  simple_path graph (c ++ [t])
  ↔ simple_path graph c ∧ t ∈ values graph ∧ name t ∉ name <$> c ∧
    ∀ s, last c = Some s → name t ∈ get_neighbors s.
Proof.
  unfold simple_path. rewrite Forall_app, Forall_singleton, fmap_app, NoDup_app, linked_app.
  split.
  - intros ((Hc & Ht) & (Hnd & Hfresh & _) & Hlc & _ & Hlast).
    split; [done |]. split; [done |]. split.
    + intros Hin. apply (Hfresh _ Hin). simpl. left.
    + intros s Hs. by apply Hlast.
  - intros ((Hc & Hnd & Hlc) & Ht & Hfresh & Hlast).
    split; [done |]. split; [| split; [done | split; [done |]]].
    + split; [done |]. split; [| apply NoDup_singleton].
      intros x Hx Hxt. simpl in Hxt. apply list_elem_of_singleton in Hxt. by subst.
    + intros u t' Hu Ht'. simpl in Ht'. injection Ht' as <-. by apply Hlast.
Qed.

Lemma simple_path_length (graph : Table) (c : list State) :
  simple_path graph c → (length c ≤ length graph)%nat.
Proof.
  intros (Hvals & Hnd & _).
  assert (Hsub : name <$> c ⊆+ name <$> values graph).
  { apply NoDup_submseteq; [done |]. intros x Hx.
    apply list_elem_of_fmap in Hx as (s & -> & Hs). apply list_elem_of_fmap_2.
    rewrite Forall_forall in Hvals. by apply Hvals. }
  apply submseteq_length in Hsub. rewrite !length_fmap in Hsub.
  unfold values in Hsub. by rewrite length_map in Hsub.
Qed.

(** X4: the returned list is closed under reversal: since the table lists
    every border in both directions, the reverse of every returned chain is
    returned as well. *)
Theorem reverse_of_a_chain_is_emitted (limit : nat) (chain_length : Z) (σ : Store) :
  (length states_and_neighbors ≤ limit)%nat →
  ∃ chains,
    run_chains (build_neighbor_chains states_and_neighbors limit chain_length) σ = Ok chains ∧
    ∀ chain, chain ∈ chains → rev chain ∈ chains.
Proof.
  intros Hlimit. destruct (build_returns limit chain_length σ Hlimit) as (chains & Hrun & Href).
  exists chains. split; [done |]. intros chain Hchain.
  destruct (Z.le_gt_cases 1 chain_length) as [Hn | Hn].
  - destruct (reference_chains_sound states_and_neighbors source_order (λ l, reflexivity l)
                limit chain_length chains chain states_and_neighbors_well_keyed Hn Href Hchain)
      as [Hlen Hpath].
    apply (reference_chains_complete states_and_neighbors source_order
             (λ l, reflexivity l) limit chain_length chains (rev chain)
             states_and_neighbors_well_keyed Hn Href).
    + apply simple_path_rev; [apply states_and_neighbors_symmetric | done].
    + by rewrite length_rev.
  - rewrite reference_chains_nonpositive in Href;
      [| intros; reflexivity | apply states_and_neighbors_closed | done | lia].
    inversion Href; subst. inversion Hchain.
Qed.

Lemma reverse_of_a_chain_is_emitted_witness :
  (length states_and_neighbors ≤ 50)%nat ∧
  ∃ chains,
    run_chains (build_neighbor_chains states_and_neighbors 50 4) empty_store = Ok chains ∧
    ∀ chain, chain ∈ chains → rev chain ∈ chains.
Proof.
  split; [simpl; lia |].
  apply (reverse_of_a_chain_is_emitted 50 4 empty_store). simpl; lia.
Defined.

(** X5: a chain cannot be longer than the table: for every chain length
    above the number of states the run still returns, with the empty list. *)
Theorem no_chain_longer_than_the_table (limit : nat) (chain_length : Z) (σ : Store) :
  (length states_and_neighbors ≤ limit)%nat →
  Z.of_nat (length states_and_neighbors) < chain_length →
  run_chains (build_neighbor_chains states_and_neighbors limit chain_length) σ = Ok [].
Proof.
  intros Hlimit Hn. destruct (build_returns limit chain_length σ Hlimit) as (chains & Hrun & Href).
  rewrite Hrun. f_equal. destruct chains as [|chain chains]; [done | exfalso].
  destruct (reference_chains_sound states_and_neighbors source_order (λ l, reflexivity l)
              limit chain_length (chain :: chains) chain states_and_neighbors_well_keyed
              ltac:(lia) Href ltac:(left)) as [Hlen Hpath].
  apply simple_path_length in Hpath. lia.
Qed.

Lemma no_chain_longer_than_the_table_witness :
  (length states_and_neighbors ≤ 50)%nat ∧
  Z.of_nat (length states_and_neighbors) < 51 ∧
  run_chains (build_neighbor_chains states_and_neighbors 50 51) empty_store = Ok [].
Proof.
  split; [simpl; lia |]. split; [simpl; lia |].
  apply (no_chain_longer_than_the_table 50 51 empty_store); simpl; lia.
Defined.

(** X6: runs for consecutive lengths compose: the chains of length n + 1
    are exactly the chains of length n extended at the end by a state that
    the last state lists as a neighbor and that is not yet on the chain. *)
Theorem chains_extend_shorter_chains (limit : nat) (chain_length : Z) (σ : Store) :
  (length states_and_neighbors ≤ limit)%nat → 1 ≤ chain_length →
  ∃ chains longer,
    run_chains (build_neighbor_chains states_and_neighbors limit chain_length) σ = Ok chains ∧
    run_chains (build_neighbor_chains states_and_neighbors limit (chain_length + 1)) σ
      = Ok longer ∧
    ∀ x, x ∈ longer
         ↔ ∃ chain s t,
             x = chain ++ [t] ∧ chain ∈ chains ∧ last chain = Some s ∧
             name t ∈ get_neighbors s ∧
             dict_get states_and_neighbors (name t) = Some t ∧
             name t ∉ name <$> chain.
Proof.
  intros Hlimit Hn.
  destruct (build_returns limit chain_length σ Hlimit) as (chains & Hrun & Href).
  destruct (build_returns limit (chain_length + 1) σ Hlimit) as (longer & Hrun' & Href').
  exists chains, longer. split; [done |]. split; [done |].
  pose proof states_and_neighbors_well_keyed as Hwk.
  intros x. split.
  - intros Hx.
    destruct (reference_chains_sound states_and_neighbors source_order (λ l, reflexivity l)
                limit (chain_length + 1) longer x Hwk ltac:(lia) Href' Hx) as [Hlen Hpath].
    destruct x as [|t chain _] using rev_ind; [simpl in Hlen; lia |].
    apply simple_path_snoc in Hpath as (Hpath & Ht & Hfresh & Hlast).
    rewrite length_app in Hlen. simpl in Hlen.
    assert (Hchain : length chain = Z.to_nat chain_length) by lia.
    destruct (last chain) as [s|] eqn:Hs;
      [| apply last_None in Hs; subst; simpl in Hchain; lia].
    exists chain, s, t. split; [done |]. split.
    + by apply (reference_chains_complete states_and_neighbors source_order
                  (λ l, reflexivity l) limit chain_length chains chain Hwk Hn Href).
    + split; [done |]. split; [by apply Hlast |]. split; [by apply dict_get_values | done].
  - intros (chain & s & t & -> & Hchain & Hs & Hts & Ht & Hfresh).
    destruct (reference_chains_sound states_and_neighbors source_order (λ l, reflexivity l)
                limit chain_length chains chain Hwk Hn Href Hchain) as [Hlen Hpath].
    apply (reference_chains_complete states_and_neighbors source_order
             (λ l, reflexivity l) limit (chain_length + 1) longer _ Hwk ltac:(lia) Href').
    + apply simple_path_snoc. split; [done |]. split; [by eapply dict_get_elem_of |].
      split; [done |]. intros s' Hs'. by simplify_eq.
    + rewrite length_app. simpl. lia.
Qed.

Lemma chains_extend_shorter_chains_witness :
  (length states_and_neighbors ≤ 50)%nat ∧ 1 ≤ 2 ∧
  ∃ chains longer,
    run_chains (build_neighbor_chains states_and_neighbors 50 2) empty_store = Ok chains ∧
    run_chains (build_neighbor_chains states_and_neighbors 50 (2 + 1)) empty_store
      = Ok longer ∧
    ∀ x, x ∈ longer
         ↔ ∃ chain s t,
             x = chain ++ [t] ∧ chain ∈ chains ∧ last chain = Some s ∧
             name t ∈ get_neighbors s ∧
             dict_get states_and_neighbors (name t) = Some t ∧
             name t ∉ name <$> chain.
Proof.
  split; [simpl; lia |]. split; [lia |].
  apply (chains_extend_shorter_chains 50 2 empty_store); [simpl; lia | lia].
Defined.

(** * Further properties of the word index and the report *)

(** ** Chain strings *)

Lemma chars_app (s t : string) : chars (s +:+ t) = chars s ++ chars t.
Proof. unfold chars. induction s as [|c s IH]; simpl; [done | by rewrite IH]. Qed.

Lemma chars_chain_string (chain : list State) :
  chars (chain_string chain) = concat (map (λ s, chars (get_abbr s)) chain).
Proof.
  unfold chain_string. induction chain as [|s [|t chain] IH]; [done | |].
  - cbn. by rewrite app_nil_r.
  - change (chars (get_abbr s +:+ "" +:+ String.concat "" (map get_abbr (t :: chain)))
            = chars (get_abbr s) ++ concat (map (λ s, chars (get_abbr s)) (t :: chain))).
    by rewrite !chars_app, IH.
Qed.

Lemma chain_string_conforming (graph : Table) (chain : list State) :
  postal_abbrs graph → Forall (λ s, s ∈ values graph) chain →
  conforming (Z.of_nat (length chain) * 2) (chain_string chain) = true.
Proof.
  intros Habbr Hchain. apply conforming_spec.
  unfold len. rewrite <- length_chars, chars_chain_string.
  unfold postal_abbrs in Habbr. rewrite Forall_forall in Habbr.
  induction Hchain as [|s chain Hs _ [IHlen IHall]]; [split; [done | constructor] |].
  specialize (Habbr s Hs). apply conforming_spec in Habbr as [Hlen Hall].
  unfold len in Hlen. rewrite <- length_chars in Hlen.
  cbn [map concat length]. rewrite length_app. split; [lia |].
  apply Forall_app. by split.
Qed.

(** ** Keys and anagrams *)

Lemma generate_key_letters (word : string) :
  Forall (λ c, (65 ≤ ord c ≤ 90)%N) (chars word) →
  generate_key word = join (sort (chars word)).
Proof.
  intros Hletters. unfold generate_key. apply upper_letters. rewrite chars_join.
  unfold sort. by rewrite merge_sort_Permutation.
Qed.

Lemma join_inj (l l' : list ascii) : join l = join l' → l = l'.
Proof. intros H. by rewrite <- (chars_join l), <- (chars_join l'), H. Qed.

(** On strings of letters A-Z equal keys mean the same letters. *)
Lemma generate_key_anagram (word query : string) :
  Forall (λ c, (65 ≤ ord c ≤ 90)%N) (chars word) →
  Forall (λ c, (65 ≤ ord c ≤ 90)%N) (chars query) →
  generate_key word = generate_key query ↔ chars word ≡ₚ chars query.
Proof.
  intros Hw Hq. split; [| apply generate_key_permutation].
  rewrite (generate_key_letters _ Hw), (generate_key_letters _ Hq).
  intros Heq%join_inj. unfold sort in Heq.
  by rewrite <- (merge_sort_Permutation char_le (chars word)), Heq, merge_sort_Permutation.
Qed.

Lemma states_and_neighbors_postal_abbrs : postal_abbrs states_and_neighbors.
Proof. apply (bool_decide_unpack _). vm_compute. exact I. Qed.

(** X7: the chains fit the word filter: whatever the chain length, the
    letters of every returned chain are exactly 2 x chain_length letters
    A-Z, the shape the filter admits words of. *)
Theorem chain_strings_fit_the_word_filter (limit : nat) (chain_length : Z) (σ : Store) :
  (length states_and_neighbors ≤ limit)%nat →
  ∃ chains,
    run_chains (build_neighbor_chains states_and_neighbors limit chain_length) σ = Ok chains ∧
    ∀ chain, chain ∈ chains →
      len (chain_string chain) = chain_length * 2 ∧
      Forall (λ c, (65 ≤ ord c ≤ 90)%N) (chars (chain_string chain)).
Proof.
  intros Hlimit. destruct (build_returns limit chain_length σ Hlimit) as (chains & Hrun & Href).
  exists chains. split; [done |]. intros chain Hchain.
  destruct (Z.le_gt_cases 1 chain_length) as [Hn | Hn].
  - destruct (reference_chains_sound states_and_neighbors source_order (λ l, reflexivity l)
                limit chain_length chains chain states_and_neighbors_well_keyed Hn Href Hchain)
      as [Hlen (Hvals & _)].
    pose proof (chain_string_conforming states_and_neighbors chain
                  states_and_neighbors_postal_abbrs Hvals) as Hconf.
    apply conforming_spec in Hconf as [Hl Hall]. split; [lia | done].
  - rewrite reference_chains_nonpositive in Href;
      [| intros; reflexivity | apply states_and_neighbors_closed | done | lia].
    inversion Href; subst. inversion Hchain.
Qed.

Lemma chain_strings_fit_the_word_filter_witness :
  (length states_and_neighbors ≤ 50)%nat ∧
  ∃ chains,
    run_chains (build_neighbor_chains states_and_neighbors 50 3) empty_store = Ok chains ∧
    ∀ chain, chain ∈ chains →
      len (chain_string chain) = 3 * 2 ∧
      Forall (λ c, (65 ≤ ord c ≤ 90)%N) (chars (chain_string chain)).
Proof.
  split; [simpl; lia |].
  apply (chain_strings_fit_the_word_filter 50 3 empty_store). simpl; lia.
Defined.

(** On a chain of states with postal abbreviations the key selects the
    admitted words made of the letters of the chain. *)
Lemma lookup_chain_string (graph : Table) (word_length : Z) (word_file : list string)
    (chain : list State) :
  postal_abbrs graph → Forall (λ s, s ∈ values graph) chain →
  lookup_words (build_index word_length word_file) (chain_string chain)
  = List.filter (λ w, bool_decide (chars w ≡ₚ concat (map (λ s, chars (get_abbr s)) chain)))
                (admitted_words word_length word_file).
Proof.
  intros Habbr Hchain. unfold lookup_words. rewrite build_index_lookup.
  apply filter_ext_in. intros w Hw. apply bool_decide_ext.
  apply list_elem_of_In, elem_of_admitted_words in Hw as (line & _ & _ & Hconf).
  apply conforming_spec in Hconf as [_ Hw].
  pose proof (chain_string_conforming graph chain Habbr Hchain) as Hq.
  apply conforming_spec in Hq as [_ Hq].
  rewrite (generate_key_anagram _ _ Hw Hq). by rewrite chars_chain_string.
Qed.

(** X8: the words printed for a chain are its anagrams: for a chain of
    states whose abbreviations are two letters A-Z each, the lookup in the
    index returns exactly the admitted words that consist of the letters of
    the chain's abbreviations, in file order. *)
Theorem chain_words_are_its_anagrams (graph : Table) (word_length : Z)
    (word_file : list string) (chain : list State) :
  postal_abbrs graph → Forall (λ s, s ∈ values graph) chain →
  lookup_words (build_index word_length word_file)
               (String.concat "" (map get_abbr chain))
  = List.filter (λ w, bool_decide (chars w ≡ₚ concat (map (λ s, chars (get_abbr s)) chain)))
                (admitted_words word_length word_file).
Proof. apply lookup_chain_string. Qed.

Lemma chain_words_are_its_anagrams_witness :
  postal_abbrs states_and_neighbors ∧
  Forall (λ s, s ∈ values states_and_neighbors)
         [mkState "Alabama" "AL" ["Mississippi"; "Tennessee"; "Florida"; "Georgia"]] ∧
  lookup_words (build_index 2 ["la"; "Al"; "ox"])
    (String.concat "" (map get_abbr [mkState "Alabama" "AL" ["Mississippi"; "Tennessee"; "Florida"; "Georgia"]]))
  = List.filter
      (λ w, bool_decide
              (chars w ≡ₚ concat (map (λ s, chars (get_abbr s))
                 [mkState "Alabama" "AL" ["Mississippi"; "Tennessee"; "Florida"; "Georgia"]])))
      (admitted_words 2 ["la"; "Al"; "ox"]).
Proof.
  assert (Hchain : Forall (λ s, s ∈ values states_and_neighbors)
            [mkState "Alabama" "AL" ["Mississippi"; "Tennessee"; "Florida"; "Georgia"]]).
  { constructor; [| constructor]. apply (bool_decide_unpack _). vm_compute. exact I. }
  split; [apply states_and_neighbors_postal_abbrs |]. split; [done |].
  apply (chain_words_are_its_anagrams states_and_neighbors 2 ["la"; "Al"; "ox"] _
           states_and_neighbors_postal_abbrs Hchain).
Defined.

Lemma chain_key_permutation (chain chain' : list State) :
  chain ≡ₚ chain' → chain_key chain = chain_key chain'.
Proof.
  intros Hperm. unfold chain_key. apply generate_key_permutation.
  fold (chain_string chain) (chain_string chain'). rewrite !chars_chain_string.
  induction Hperm as [| s c c' _ IH | s t c | c1 c2 c3 _ IH1 _ IH2]; simpl.
  - done.
  - by rewrite IH.
  - rewrite !app_assoc. f_equiv. apply Permutation_app_comm.
  - by rewrite IH1.
Qed.

(** X9: the order of the states on a chain does not matter for the words
    found: two chains over the same states have the same key, so the loop
    over the chains prints the same words for both and adds the same words
    to the final listing. *)
Theorem chains_over_the_same_states_find_the_same_words
    (anagrams : gmap string (list string)) (acc : list string * gset string)
    (chain chain' : list State) :
  chain ≡ₚ chain' →
  anagrams !! generate_key (String.concat "" (map get_abbr chain))
  = anagrams !! generate_key (String.concat "" (map get_abbr chain')) ∧
  snd (report_chain anagrams acc chain) = snd (report_chain anagrams acc chain') ∧
  length (fst (report_chain anagrams acc chain))
  = length (fst (report_chain anagrams acc chain')).
Proof.
  intros Hperm. pose proof (chain_key_permutation chain chain' Hperm) as Hkey.
  unfold chain_key in Hkey. unfold report_chain. cbv zeta. rewrite Hkey.
  split; [done |].
  destruct (anagrams !! _) as [words|]; [| done].
  split; [done |]. cbn [fst]. by rewrite !length_app.
Qed.

Lemma chains_over_the_same_states_find_the_same_words_witness :
  [mkState "Alabama" "AL" []; mkState "Mississippi" "MS" []]
  ≡ₚ [mkState "Mississippi" "MS" []; mkState "Alabama" "AL" []] ∧
  build_index 4 ["slam"] !! generate_key (String.concat "" (map get_abbr
      [mkState "Alabama" "AL" []; mkState "Mississippi" "MS" []]))
  = build_index 4 ["slam"] !! generate_key (String.concat "" (map get_abbr
      [mkState "Mississippi" "MS" []; mkState "Alabama" "AL" []])) ∧
  snd (report_chain (build_index 4 ["slam"]) ([], ∅)
         [mkState "Alabama" "AL" []; mkState "Mississippi" "MS" []])
  = snd (report_chain (build_index 4 ["slam"]) ([], ∅)
           [mkState "Mississippi" "MS" []; mkState "Alabama" "AL" []]) ∧
  length (fst (report_chain (build_index 4 ["slam"]) ([], ∅)
                 [mkState "Alabama" "AL" []; mkState "Mississippi" "MS" []]))
  = length (fst (report_chain (build_index 4 ["slam"]) ([], ∅)
                   [mkState "Mississippi" "MS" []; mkState "Alabama" "AL" []])).
Proof.
  assert (Hperm : [mkState "Alabama" "AL" []; mkState "Mississippi" "MS" []]
                  ≡ₚ [mkState "Mississippi" "MS" []; mkState "Alabama" "AL" []])
    by apply perm_swap.
  split; [done |].
  apply (chains_over_the_same_states_find_the_same_words (build_index 4 ["slam"]) ([], ∅)
           _ _ Hperm).
Defined.




(** ** The index as a function of the admitted words *)

Lemma lstrip_letters (l : list ascii) :
  Forall (λ c, (65 ≤ ord c ≤ 90)%N) l → lstrip l = l.
Proof.
  destruct 1 as [|c l Hc _]; [done |]. simpl. unfold is_space.
  replace (ord c <=? 13)%N with false by (symmetry; apply N.leb_gt; lia).
  replace (ord c <=? 32)%N with false by (symmetry; apply N.leb_gt; lia).
  by rewrite !andb_false_r.
Qed.

(** Stripping and upper-casing leave a string of letters A-Z as it is. *)
Lemma normal_letters (word : string) :
  Forall (λ c, (65 ≤ ord c ≤ 90)%N) (chars word) → upper (strip word) = word.
Proof.
  intros Hletters.
  assert (Hstrip : strip word = word).
  { unfold strip. rewrite (lstrip_letters _ Hletters).
    rewrite lstrip_letters by (by apply Forall_rev).
    by rewrite rev_involutive, join_chars. }
  rewrite Hstrip. by apply upper_letters.
Qed.

Lemma admitted_words_cons (word_length : Z) (line : string) (word_file : list string) :
  admitted_words word_length (line :: word_file)
  = if conforming word_length (upper (strip line))
    then upper (strip line) :: admitted_words word_length word_file
    else admitted_words word_length word_file.
Proof. reflexivity. Qed.

Lemma admitted_words_fixed (word_length : Z) (words : list string) :
  Forall (λ w, conforming word_length w = true) words →
  admitted_words word_length words = words.
Proof.
  induction 1 as [|w words Hw _ IH]; [done |].
  rewrite admitted_words_cons.
  assert (Hnorm : upper (strip w) = w).
  { apply normal_letters. by apply conforming_spec in Hw as [_ Hw]. }
  by rewrite Hnorm, Hw, IH.
Qed.

Lemma admitted_words_conforming (word_length : Z) (word_file : list string) :
  Forall (λ w, conforming word_length w = true) (admitted_words word_length word_file).
Proof.
  apply Forall_forall. intros w Hw.
  by apply elem_of_admitted_words in Hw as (line & _ & _ & Hconf).
Qed.

Lemma fold_index_nonempty (word_length : Z) (word_file : list string) :
  ∀ anagrams : gmap string (list string),
    (∀ key words, anagrams !! key = Some words → words ≠ []) →
    ∀ key words,
      fold_left (index_line word_length) word_file anagrams !! key = Some words → words ≠ [].
Proof.
  induction word_file as [|line lines IH]; intros anagrams Hinv; [done |].
  cbn [fold_left]. apply IH. rewrite index_line_conforming. cbv zeta.
  destruct (conforming word_length (upper (strip line))); [| done].
  intros key words Hkey. apply lookup_insert_Some in Hkey as [[_ <-] | [_ Hkey]].
  - intros Hnil. apply (f_equal length) in Hnil. rewrite length_app in Hnil.
    simpl in Hnil. lia.
  - by eapply Hinv.
Qed.

Lemma build_index_nonempty (word_length : Z) (word_file : list string) key words :
  build_index word_length word_file !! key = Some words → words ≠ [].
Proof. apply fold_index_nonempty. intros k ws. by rewrite lookup_empty. Qed.

Lemma build_index_admitted (word_length : Z) (word_file word_file' : list string) :
  admitted_words word_length word_file' = admitted_words word_length word_file →
  build_index word_length word_file' = build_index word_length word_file.
Proof.
  intros Hadm. apply map_eq. intros key.
  pose proof (build_index_lookup word_length word_file key) as H.
  pose proof (build_index_lookup word_length word_file' key) as H'.
  rewrite Hadm, <- H in H'.
  destruct (build_index word_length word_file' !! key) as [ws'|] eqn:Hk';
    destruct (build_index word_length word_file !! key) as [ws|] eqn:Hk;
    simpl in H'; subst; try done.
  - by apply build_index_nonempty in Hk'.
  - by apply build_index_nonempty in Hk.
Qed.

(** X11: the index is a function of the admitted words alone: word files
    with the same admitted words give the same index, so lines that do not
    conform, case and surrounding whitespace leave no trace in it, and the
    index built from the admitted words themselves is the index of the
    file.  No key of the index has an empty list, and every word is filed
    under its own key. *)
Theorem index_is_built_from_the_admitted_words (word_length : Z) (word_file : list string) :
  (∀ word_file',
     admitted_words word_length word_file' = admitted_words word_length word_file →
     build_index word_length word_file' = build_index word_length word_file) ∧
  build_index word_length (admitted_words word_length word_file)
  = build_index word_length word_file ∧
  (∀ key words,
     build_index word_length word_file !! key = Some words →
     words ≠ [] ∧
     Forall (λ w, generate_key w = key ∧ w ∈ admitted_words word_length word_file) words).
Proof.
  split; [intros wf'; apply build_index_admitted |]. split.
  - apply build_index_admitted, admitted_words_fixed, admitted_words_conforming.
  - intros key words Hkey. split; [by eapply build_index_nonempty |].
    pose proof (build_index_lookup word_length word_file key) as Hlookup.
    rewrite Hkey in Hlookup. simpl in Hlookup. rewrite Hlookup.
    apply Forall_forall. intros w Hw.
    apply list_elem_of_In, filter_In in Hw as [Hw Hk].
    apply bool_decide_eq_true in Hk. split; [done | by apply list_elem_of_In].
Qed.

(** ** The printed report *)

Lemma report_chains_index (word_length : Z) (word_file : list string)
    (chains : list (list State)) :
  fst (report_chains (build_index word_length word_file) chains) = []
  ↔ snd (report_chains (build_index word_length word_file) chains) = ∅.
Proof.
  set (anagrams := build_index word_length word_file).
  destruct (fold_report_chain anagrams chains [] ∅) as [Hprinted Htotal].
  unfold report_chains. rewrite Hprinted. simpl. split.
  - intros Hnil. apply set_eq. intros word. rewrite Htotal.
    split; [| set_solver]. intros [(chain & words & Hchain & Hkey & _) | Hw]; [| done].
    assert (Hin : report_line (map get_abbr chain) words
                  ∈ omap (λ chain, report_line (map get_abbr chain)
                                     <$> anagrams !! chain_key chain) chains).
    { apply list_elem_of_omap. exists chain. split; [done |]. by rewrite Hkey. }
    rewrite Hnil in Hin. inversion Hin.
  - intros Hempty.
    destruct (omap _ chains) as [|printed rest] eqn:Hlines; [done | exfalso].
    assert (Hin : printed ∈ omap (λ chain, report_line (map get_abbr chain)
                                             <$> anagrams !! chain_key chain) chains)
      by (rewrite Hlines; left).
    apply list_elem_of_omap in Hin as (chain & Hchain & Hline).
    destruct (anagrams !! chain_key chain) as [words|] eqn:Hkey; [| done].
    destruct words as [|word words]; [by apply build_index_nonempty in Hkey |].
    assert (Hword : word ∈ snd (fold_left (report_chain anagrams) chains ([], ∅))).
    { apply Htotal. left. exists chain, (word :: words). split; [done |].
      split; [done | left]. }
    rewrite Hempty in Hword. set_solver.
Qed.

(** X12: the report is consistent: a finished run prints either the single
    line that no words were found, or at least one line for a chain,
    followed by the heading and a listing of at least one word without
    repetition.  It never prints a chain and then that no words were
    found, and never a heading without a chain above it. *)
Theorem report_is_consistent (argv : list string) (files : string → option (list string))
    (limit : nat) (out : list string) :
  main argv files limit = Ok out →
  out = ["No words found."] ∨
  ∃ lines words,
    lines ≠ [] ∧ words ≠ [] ∧ NoDup words ∧
    out = lines ++ [""; "All words:"] ++ map (λ word, "    " +:+ word) words.
Proof.
  unfold main. intros Hmain.
  destruct (parse_args argv) as [[chain_length path]|]; [| done].
  destruct (run_chains _ _) as [chains|]; [| done].
  destruct (files path) as [word_file|]; [| done].
  pose proof (report_chains_index (chain_length * 2) word_file chains) as Hiff.
  destruct (report_chains _ chains) as [printed total]. simpl in Hiff.
  injection Hmain as <-. unfold summary.
  destruct (decide (total = ∅)) as [-> | Hne].
  - left. rewrite (proj2 Hiff eq_refl), size_empty. done.
  - right. exists printed, (all_words total).
    assert (Hsize : (0 < size total)%nat).
    { destruct (size total) eqn:Hsz; [| lia].
      apply size_empty_iff, leibniz_equiv in Hsz. done. }
    rewrite (proj2 (Nat.ltb_lt _ _) Hsize).
    split; [by intros Hnil%Hiff |]. split; [| split; [apply NoDup_elements | done]].
    unfold all_words. by intros Hnil%elements_empty_iff%leibniz_equiv.
Qed.

Lemma report_is_consistent_witness :
  main ["state-chain-words.py"; "1"; "words"] (λ _, Some ["al"; "Ohio"]) 50
  = Ok ["AL : AL"; "LA : AL"; ""; "All words:"; "    AL"] ∧
  (["AL : AL"; "LA : AL"; ""; "All words:"; "    AL"] = ["No words found."] ∨
   ∃ lines words,
     lines ≠ [] ∧ words ≠ [] ∧ NoDup words ∧
     ["AL : AL"; "LA : AL"; ""; "All words:"; "    AL"]
     = lines ++ [""; "All words:"] ++ map (λ word, "    " +:+ word) words).
Proof.
  assert (Hmain : main ["state-chain-words.py"; "1"; "words"] (λ _, Some ["al"; "Ohio"]) 50
                  = Ok ["AL : AL"; "LA : AL"; ""; "All words:"; "    AL"])
    by (vm_compute; reflexivity).
  split; [done |].
  apply (report_is_consistent ["state-chain-words.py"; "1"; "words"]
           (λ _, Some ["al"; "Ohio"]) 50 _ Hmain).
Defined.

(** ** The exceptions of the program *)




(** * Further properties of the store *)

(** ** What a run leaves in the store *)

Lemma extends_prefix {A} (h h' : list A) : extends (λ _, True) h h' → h `prefix_of` h'.
Proof.
  intros [Hlen H]. exists (drop (length h) h').
  rewrite <- (take_drop (length h) h') at 1. f_equal.
  apply list_eq. intros i. destruct (decide (i < length h)%nat) as [Hi | Hi].
  - rewrite lookup_take_lt by done. by apply H.
  - rewrite lookup_take_ge by lia. symmetry. apply lookup_ge_None_2. lia.
Qed.

Lemma agrees_Ok {A} (spec : Result (list (list State))) (run : Result (A * Store))
    (post : list (list State) → A → Store → Prop) a σ' :
  agrees spec run post → run = Ok (a, σ') → ∃ out, spec = Ok out ∧ post out a σ'.
Proof.
  unfold agrees. destruct spec as [out|e]; [| congruence].
  intros (a' & σ'' & -> & Hpost) [= <- <-]. eauto.
Qed.

Lemma build_frame (graph : Table) (limit : nat) (chain_length : Z) (σ σ' : Store)
    (chains : ref) :
  build_neighbor_chains graph limit chain_length σ = Ok (chains, σ') →
  chains = length (chains_objs σ) ∧
  extends (λ _, True) (chain_objs σ) (chain_objs σ') ∧
  extends (λ _, True) (seen_objs σ) (seen_objs σ') ∧
  ∃ refs,
    chains_objs σ' = chains_objs σ ++ [refs] ∧
    Forall (λ r, (length (chain_objs σ) ≤ r < length (chain_objs σ'))%nat) refs ∧
    reference_chains graph source_order limit chain_length = Ok (deref σ' <$> refs).
Proof.
  pose proof (states_loop graph limit (length (chains_objs σ)) (chain_length - 1)
                (values graph)
                (mkStore (chain_objs σ) (seen_objs σ) (chains_objs σ ++ [[]]))) as Hloop.
  assert (Hrun : build_neighbor_chains graph limit chain_length σ =
    match for_each (values graph) (λ state,
            new_chain ← new_chain_obj;
            states_seen ← new_seen_obj;
            traverse_neighbor_chain graph limit state states_seen (length (chains_objs σ))
                                    new_chain (chain_length - 1))
            (mkStore (chain_objs σ) (seen_objs σ) (chains_objs σ ++ [[]])) with
    | Ok (_, σ') => Ok (length (chains_objs σ), σ')
    | Raise e => Raise e
    end) by reflexivity.
  rewrite Hrun. clear Hrun. unfold reference_chains, agrees in *.
  destruct (collect (values graph) _) as [out|e]; [| by rewrite Hloop].
  destruct Hloop as ([] & σ1 & -> & Hec & Hes & refs & Hchains & Hfresh & Hout).
  intros [= <- <-]. simpl in *. split; [done |]. split; [done |]. split; [done |].
  exists refs. split; [| split; [done | by rewrite Hout]].
  rewrite Hchains. rewrite <- (Nat.add_0_r (length (chains_objs σ))) at 1.
  by rewrite alter_app_r.
Qed.

(** X14: [build_neighbor_chains] only allocates: started in any store, a
    run that returns leaves every object that was there as it was (the old
    heaps are prefixes of the new ones), returns a list object that did not
    exist before, and that list refers only to chain objects the run itself
    has allocated. *)
Theorem build_neighbor_chains_only_allocates (graph : Table) (limit : nat)
    (chain_length : Z) (σ σ' : Store) (chains : ref) :
  build_neighbor_chains graph limit chain_length σ = Ok (chains, σ') →
  chains = length (chains_objs σ) ∧
  chain_objs σ `prefix_of` chain_objs σ' ∧
  seen_objs σ `prefix_of` seen_objs σ' ∧
  chains_objs σ `prefix_of` chains_objs σ' ∧
  ∃ refs,
    chains_objs σ' !! chains = Some refs ∧
    Forall (λ r, (length (chain_objs σ) ≤ r < length (chain_objs σ'))%nat) refs.
Proof.
  intros Hrun.
  destruct (build_frame graph limit chain_length σ σ' chains Hrun)
    as (-> & Hec & Hes & refs & Hchains & Hfresh & _).
  split; [done |]. split; [by apply extends_prefix |]. split; [by apply extends_prefix |].
  split; [rewrite Hchains; by apply prefix_app_r |].
  exists refs. split; [| done]. by rewrite Hchains, list_lookup_middle.
Qed.

Lemma build_neighbor_chains_only_allocates_witness :
  ∃ σ' chains,
    build_neighbor_chains line_graph 3 2 (mkStore [[]] [∅] [[0%nat]]) = Ok (chains, σ') ∧
    chains = length (chains_objs (mkStore [[]] [∅] [[0%nat]])) ∧
    chain_objs (mkStore [[]] [∅] [[0%nat]]) `prefix_of` chain_objs σ' ∧
    seen_objs (mkStore [[]] [∅] [[0%nat]]) `prefix_of` seen_objs σ' ∧
    chains_objs (mkStore [[]] [∅] [[0%nat]]) `prefix_of` chains_objs σ' ∧
    ∃ refs,
      chains_objs σ' !! chains = Some refs ∧
      Forall (λ r, (length (chain_objs (mkStore [[]] [∅] [[0%nat]])) ≤ r
                    < length (chain_objs σ'))%nat) refs.
Proof.
  destruct (build_neighbor_chains line_graph 3 2 (mkStore [[]] [∅] [[0%nat]]))
    as [[chains σ']|e] eqn:Hrun; [| exfalso; vm_compute in Hrun; discriminate].
  exists σ', chains. split; [done |].
  apply (build_neighbor_chains_only_allocates line_graph 3 2 _ σ' chains Hrun).
Defined.

(** X15: a later run does not disturb an earlier result: when
    [build_neighbor_chains] is called again in the store an earlier call
    has left, it returns another list object, the list the earlier call
    returned still denotes the same chains, and the later call returns
    what it would have returned in the first store. *)
Theorem a_later_run_keeps_the_earlier_chains (graph : Table) (limit limit' : nat)
    (chain_length chain_length' : Z) (σ σ1 σ2 : Store) (chains chains' : ref) :
  build_neighbor_chains graph limit chain_length σ = Ok (chains, σ1) →
  build_neighbor_chains graph limit' chain_length' σ1 = Ok (chains', σ2) →
  chains' ≠ chains ∧
  read_chains σ2 chains = read_chains σ1 chains ∧
  run_chains (build_neighbor_chains graph limit' chain_length') σ
  = Ok (read_chains σ2 chains').
Proof.
  intros Hrun Hrun'.
  destruct (agrees_Ok _ _ _ _ _ (build_refines graph limit chain_length σ) Hrun)
    as (out & _ & Hread & _ & Hlt & _ & _ & Hstable).
  destruct (agrees_Ok _ _ _ _ _ (build_refines graph limit' chain_length' σ1) Hrun')
    as (out' & _ & _ & -> & _ & Hec & Hech & _).
  split; [lia |]. split; [by rewrite Hread; apply Hstable |].
  rewrite run_chains_reference, <- (run_chains_reference graph limit' chain_length' σ1).
  unfold run_chains. by rewrite Hrun'.
Qed.

Lemma a_later_run_keeps_the_earlier_chains_witness :
  ∃ σ1 σ2 chains chains',
    build_neighbor_chains line_graph 3 2 empty_store = Ok (chains, σ1) ∧
    build_neighbor_chains line_graph 3 3 σ1 = Ok (chains', σ2) ∧
    chains' ≠ chains ∧
    read_chains σ2 chains = read_chains σ1 chains ∧
    run_chains (build_neighbor_chains line_graph 3 3) empty_store
    = Ok (read_chains σ2 chains').
Proof.
  destruct (build_neighbor_chains line_graph 3 2 empty_store)
    as [[chains σ1]|e] eqn:Hrun; [| exfalso; vm_compute in Hrun; discriminate].
  destruct (build_neighbor_chains line_graph 3 3 σ1)
    as [[chains' σ2]|e] eqn:Hrun'.
  - exists σ1, σ2, chains, chains'. split; [done |]. split; [done |].
    apply (a_later_run_keeps_the_earlier_chains line_graph 3 3 2 3 empty_store σ1 σ2
             chains chains' Hrun Hrun').
  - exfalso. vm_compute in Hrun. injection Hrun as <- <-.
    vm_compute in Hrun'. discriminate.
Defined.

(** ** The nesting limit *)

Lemma collect_keeps {A B} (l : list A) (f g : A → Result (list B)) r :
  collect l f = r → r ≠ Raise RecursionError →
  (∀ x, x ∈ l → f x ≠ Raise RecursionError → g x = f x) →
  collect l g = r.
Proof.
  revert r. induction l as [|x l IH]; intros r Hr Hne Hfg; [done |].
  simpl in *. destruct (f x) as [ys|e] eqn:Hfx.
  - rewrite (Hfg x), Hfx; [| left | by rewrite Hfx].
    destruct (collect l f) as [zs|e] eqn:Hrest.
    + rewrite (IH (Ok zs)); [done | done | done |]. intros; apply Hfg; [by right | done].
    + rewrite (IH (Raise e)); [done | done | congruence |].
      intros; apply Hfg; [by right | done].
  - rewrite (Hfg x), Hfx; [done | left | by rewrite Hfx; congruence].
Qed.

Lemma chains_from_keeps (graph : Table) (explore : list string → list string) (limit : nat) :
  ∀ limit' state chain max_depth r,
    (limit ≤ limit')%nat →
    chains_from graph explore limit state chain max_depth = r →
    r ≠ Raise RecursionError →
    chains_from graph explore limit' state chain max_depth = r.
Proof.
  induction limit as [|limit IH]; intros limit' state chain d r Hle Hr Hne;
    [simpl in Hr; congruence |].
  destruct limit' as [|limit']; [lia |]. simpl in *.
  destruct (d =? 0); [done |].
  apply (collect_keeps _ _ _ _ Hr Hne). intros n _ Hn.
  destruct (dict_get graph n) as [nb|]; [| done].
  destruct (bool_decide _); [done |].
  apply IH; [lia | done | done].
Qed.

Lemma chains_from_depth (graph : Table) (limit : nat) :
  closed graph →
  ∀ state chain max_depth,
    state ∈ values graph → 0 ≤ max_depth → (Z.to_nat max_depth < limit)%nat →
    ∃ out, chains_from graph source_order limit state chain max_depth = Ok out.
Proof.
  intros Hclosed. induction limit as [|limit IH]; intros state chain d Hs Hd Hlim; [lia |].
  simpl. destruct (Z.eqb_spec d 0) as [| Hne]; [eauto |].
  apply collect_all_Ok. intros n Hn. unfold source_order in Hn.
  pose proof Hclosed as Hc. unfold closed in Hc. rewrite Forall_forall in Hc.
  specialize (Hc _ Hs). rewrite Forall_forall in Hc.
  destruct (Hc _ Hn) as [nb Hnb]. rewrite Hnb.
  case_bool_decide; [eauto |].
  apply IH; [by eapply dict_get_elem_of | lia | lia].
Qed.

(** X16: the calls nest no deeper than the chain is long: on any table in
    which every neighbor name has an entry, a run for a chain length of at
    least 1 returns as soon as the limit allows that many nested calls,
    however many states the table has. *)
Theorem calls_nest_no_deeper_than_the_chain_length (graph : Table) (limit : nat)
    (chain_length : Z) (σ : Store) :
  closed graph → 1 ≤ chain_length → (Z.to_nat chain_length ≤ limit)%nat →
  ∃ chains, run_chains (build_neighbor_chains graph limit chain_length) σ = Ok chains.
Proof.
  intros Hclosed Hn Hlimit. rewrite run_chains_reference.
  apply collect_all_Ok. intros s Hs.
  apply chains_from_depth; [done | done | lia | lia].
Qed.

Lemma calls_nest_no_deeper_than_the_chain_length_witness :
  closed states_and_neighbors ∧ 1 ≤ 4 ∧ (Z.to_nat 4 ≤ 4)%nat ∧
  ∃ chains,
    run_chains (build_neighbor_chains states_and_neighbors 4 4) empty_store = Ok chains.
Proof.
  split; [apply states_and_neighbors_closed |]. split; [lia |]. split; [simpl; lia |].
  apply (calls_nest_no_deeper_than_the_chain_length states_and_neighbors 4 4 empty_store);
    [apply states_and_neighbors_closed | lia | simpl; lia].
Defined.

(** X17: the limit matters only through [RecursionError]: whatever a run
    returns or raises other than [RecursionError], every run with a higher
    limit returns or raises the same. *)
Theorem the_limit_matters_only_through_RecursionError (graph : Table) (limit limit' : nat)
    (chain_length : Z) (σ : Store) :
  (limit ≤ limit')%nat →
  run_chains (build_neighbor_chains graph limit chain_length) σ ≠ Raise RecursionError →
  run_chains (build_neighbor_chains graph limit' chain_length) σ
  = run_chains (build_neighbor_chains graph limit chain_length) σ.
Proof.
  rewrite !run_chains_reference. intros Hle Hne. unfold reference_chains in *.
  apply (collect_keeps _ _ _ _ eq_refl Hne). intros s _ Hs.
  by apply (chains_from_keeps graph source_order limit).
Qed.

Lemma the_limit_matters_only_through_RecursionError_witness :
  (2 ≤ 1000)%nat ∧
  run_chains (build_neighbor_chains line_graph 2 2) empty_store ≠ Raise RecursionError ∧
  run_chains (build_neighbor_chains line_graph 1000 2) empty_store
  = run_chains (build_neighbor_chains line_graph 2 2) empty_store.
Proof.
  assert (Hne : run_chains (build_neighbor_chains line_graph 2 2) empty_store
                ≠ Raise RecursionError) by (vm_compute; discriminate).
  split; [lia |]. split; [done |].
  apply (the_limit_matters_only_through_RecursionError line_graph 2 1000 2 empty_store);
    [lia | done].
Defined.



(** ** The order of the chains *)

Lemma collect_blocks {A B} (l : list A) (f : A → Result (list B)) out :
  collect l f = Ok out →
  ∃ blocks, out = concat blocks ∧ Forall2 (λ x block, f x = Ok block) l blocks.
Proof.
  revert out. induction l as [|x l IH]; simpl; intros out H.
  - inversion H. exists []. split; [done | constructor].
  - destruct (f x) as [ys|] eqn:Hfx; [| done].
    destruct (collect l f) as [zs|]; [| done].
    destruct (IH zs eq_refl) as (blocks & -> & Hall).
    inversion H. exists (ys :: blocks). split; [done | by constructor].
Qed.

(** X19: the chains come in the order of the table: the returned list is
    the concatenation of one block per table entry, in table order, and
    every chain of a block starts at the state of that entry. *)
Theorem chains_are_grouped_by_first_state (graph : Table) (limit : nat)
    (chain_length : Z) (σ : Store) (chains : list (list State)) :
  well_keyed graph →
  run_chains (build_neighbor_chains graph limit chain_length) σ = Ok chains →
  ∃ blocks,
    chains = concat blocks ∧
    Forall2 (λ state block, Forall (λ chain, head chain = Some state) block)
            (values graph) blocks.
Proof.
  intros Hwk. rewrite run_chains_reference. intros Href.
  apply collect_blocks in Href as (blocks & -> & Hall).
  exists blocks. split; [done |].
  eapply Forall2_impl; [exact Hall |]. simpl. intros s block Hblock.
  destruct (Z.ltb_spec (chain_length - 1) 0) as [Hneg | Hpos].
  - apply chains_from_negative in Hblock; [by subst | done].
  - apply Forall_forall. intros chain Hchain.
    by destruct (chains_from_sound graph source_order (λ l, reflexivity l) limit Hwk
                   s [] (chain_length - 1) block chain Hpos Hblock Hchain)
      as (rest & -> & _).
Qed.

Lemma chains_are_grouped_by_first_state_witness :
  ∃ chains,
    well_keyed line_graph ∧
    run_chains (build_neighbor_chains line_graph 3 2) empty_store = Ok chains ∧
    ∃ blocks,
      chains = concat blocks ∧
      Forall2 (λ state block, Forall (λ chain, head chain = Some state) block)
              (values line_graph) blocks.
Proof.
  assert (Hwk : well_keyed line_graph)
    by (split; apply (bool_decide_unpack _); vm_compute; exact I).
  destruct (run_chains (build_neighbor_chains line_graph 3 2) empty_store)
    as [chains|e] eqn:Hrun; [| exfalso; vm_compute in Hrun; discriminate].
  exists chains. split; [done |]. split; [done |].
  apply (chains_are_grouped_by_first_state line_graph 3 2 empty_store chains Hwk Hrun).
Defined.

(** ** The whole program *)




(** * The printed form of a state *)

Lemma str_le_total (s t : string) : str_le s t = true ∨ str_le t s = true.
Proof.
  revert t. induction s as [|a s IH]; intros [|b t]; simpl; auto.
  destruct (N.ltb_spec (ord a) (ord b)), (N.ltb_spec (ord b) (ord a)); auto.
Qed.

Lemma str_le_antisym (s t : string) : str_le s t = true → str_le t s = true → s = t.
Proof.
  revert t. induction s as [|a s IH]; intros [|b t]; simpl; try done.
  destruct (N.ltb_spec (ord a) (ord b)), (N.ltb_spec (ord b) (ord a));
    try done; try lia.
  intros Hst Hts. f_equal; [apply ord_inj; lia | by apply IH].
Qed.

Lemma str_le_trans (s t u : string) :
  str_le s t = true → str_le t u = true → str_le s u = true.
Proof.
  revert t u. induction s as [|a s IH]; intros [|b t] [|c u]; simpl; try done.
  destruct (N.ltb_spec (ord a) (ord b)), (N.ltb_spec (ord b) (ord a)),
    (N.ltb_spec (ord b) (ord c)), (N.ltb_spec (ord c) (ord b)),
    (N.ltb_spec (ord a) (ord c)), (N.ltb_spec (ord c) (ord a));
    try done; try lia.
  apply IH.
Qed.

Global Instance str_order_total : Total str_order.
Proof. intros s t. apply str_le_total. Qed.

Global Instance str_order_trans : Transitive str_order.
Proof. intros s t u. apply str_le_trans. Qed.

Global Instance str_order_antisymm : AntiSymm (=) str_order.
Proof. intros s t. apply str_le_antisym. Qed.

Lemma sorted_permutation (l l' : list string) : l ≡ₚ l' → sorted l = sorted l'.
Proof.
  intros Hperm. unfold sorted.
  apply (StronglySorted_unique str_order); try apply StronglySorted_merge_sort; try apply _.
  by rewrite !merge_sort_Permutation.
Qed.

(** X21: the printed form of a state does not depend on the order of its
    neighbor list: states with the same name, the same abbreviation and the
    same neighbors in any order print the same, with the neighbors in
    ascending order. *)
Theorem str_ignores_the_order_of_the_neighbors (s s' : State) :
  name s = name s' → abbr s = abbr s' → neighbors s ≡ₚ neighbors s' →
  State_str s = State_str s' ∧
  ∃ listed,
    State_str s = name s +:+ " (" +:+ abbr s +:+ ") " +:+ String.concat ", " listed ∧
    listed ≡ₚ neighbors s ∧ StronglySorted str_order listed.
Proof.
  intros Hname Habbr Hperm. unfold State_str.
  rewrite Hname, Habbr, (sorted_permutation _ _ Hperm). split; [done |].
  exists (sorted (neighbors s')). split; [done |]. split.
  - unfold sorted. by rewrite merge_sort_Permutation.
  - apply StronglySorted_merge_sort; apply _.
Qed.

Lemma str_ignores_the_order_of_the_neighbors_witness :
  name (State_init "Florida" "FL" (Some ["Georgia"; "Alabama"]))
  = name (State_init "Florida" "FL" (Some ["Alabama"; "Georgia"])) ∧
  abbr (State_init "Florida" "FL" (Some ["Georgia"; "Alabama"]))
  = abbr (State_init "Florida" "FL" (Some ["Alabama"; "Georgia"])) ∧
  neighbors (State_init "Florida" "FL" (Some ["Georgia"; "Alabama"]))
  ≡ₚ neighbors (State_init "Florida" "FL" (Some ["Alabama"; "Georgia"])) ∧
  State_str (State_init "Florida" "FL" (Some ["Georgia"; "Alabama"]))
  = State_str (State_init "Florida" "FL" (Some ["Alabama"; "Georgia"])) ∧
  ∃ listed,
    State_str (State_init "Florida" "FL" (Some ["Georgia"; "Alabama"]))
    = name (State_init "Florida" "FL" (Some ["Georgia"; "Alabama"])) +:+ " (" +:+
      abbr (State_init "Florida" "FL" (Some ["Georgia"; "Alabama"])) +:+ ") " +:+
      String.concat ", " listed ∧
    listed ≡ₚ neighbors (State_init "Florida" "FL" (Some ["Georgia"; "Alabama"])) ∧
    StronglySorted str_order listed.
Proof.
  assert (Hperm : neighbors (State_init "Florida" "FL" (Some ["Georgia"; "Alabama"]))
                  ≡ₚ neighbors (State_init "Florida" "FL" (Some ["Alabama"; "Georgia"])))
    by apply perm_swap.
  split; [reflexivity |]. split; [reflexivity |]. split; [done |].
  apply (str_ignores_the_order_of_the_neighbors
           (State_init "Florida" "FL" (Some ["Georgia"; "Alabama"]))
           (State_init "Florida" "FL" (Some ["Alabama"; "Georgia"])));
    [reflexivity | reflexivity | done].
Defined.

(** The printed form of a table entry, and of a state without neighbors. *)
Example State_str_samples :
  State_str (State_init "Florida" "FL" (Some ["Georgia"; "Alabama"]))
  = "Florida (FL) Alabama, Georgia" ∧
  State_str (State_init "Hawaii" "HI" None) = "Hawaii (HI) ".
Proof. vm_compute. split; reflexivity. Qed.

(** * The caller's objects *)

(** X22: the copies protect the caller's objects: a call of
    [traverse_neighbor_chain] that returns has appended its state to the
    chain object it was given, and has added it to the set it was given
    unless the chain was complete; nothing the nested calls do shows in
    either object, since they work on copies. *)
Theorem the_copies_protect_the_callers_objects (graph : Table) (limit : nat)
    (state : State) (states_seen chains chain : ref) (max_depth : Z) (σ σ' : Store)
    (c : list State) :
  chain_objs σ !! chain = Some c →
  seen_objs σ !! states_seen = Some (visited c) →
  traverse_neighbor_chain graph limit state states_seen chains chain max_depth σ
  = Ok (tt, σ') →
  chain_objs σ' !! chain = Some (c ++ [state]) ∧
  seen_objs σ' !! states_seen
  = Some (if max_depth =? 0 then visited c else visited (c ++ [state])).
Proof.
  intros Hc HS. destruct limit as [|limit]; [done |].
  pose proof (neighbors_loop graph limit (traverse_refines graph limit) states_seen chains
                chain (max_depth - 1) (c ++ [state]) (get_neighbors state)) as Hloop.
  simpl traverse_neighbor_chain.
  unfold mbind, M_bind, bind, chain_append, chains_append, seen_add in *. simpl.
  destruct (Z.eqb_spec max_depth 0) as [-> | Hne].
  - intros [= <-]. simpl. split; [by rewrite list_lookup_alter_eq, Hc | done].
  - set (σ1 := mkStore _ _ _).
    assert (Hc1 : chain_objs σ1 !! chain = Some (c ++ [state])).
    { subst σ1; simpl. by rewrite list_lookup_alter_eq, Hc. }
    assert (HS1 : seen_objs σ1 !! states_seen = Some (visited (c ++ [state]))).
    { subst σ1; simpl. rewrite list_lookup_alter_eq, HS. simpl. f_equal.
      unfold visited. rewrite fmap_app, list_to_set_app_L. simpl. set_solver. }
    clearbody σ1. specialize (Hloop σ1 Hc1 HS1). intros Hrun.
    destruct (agrees_Ok _ _ _ _ _ Hloop Hrun) as (out & _ & Hec & Hes & _).
    split; [by eapply extends_lookup | by eapply extends_lookup].
Qed.

Lemma the_copies_protect_the_callers_objects_witness :
  ∃ σ',
    chain_objs (mkStore [[]] [∅] [[]]) !! 0%nat = Some [] ∧
    seen_objs (mkStore [[]] [∅] [[]]) !! 0%nat = Some (visited []) ∧
    traverse_neighbor_chain line_graph 3 (mkState "B" "BB" ["A"; "C"]) 0 0 0 2
                            (mkStore [[]] [∅] [[]])
    = Ok (tt, σ') ∧
    chain_objs σ' !! 0%nat = Some ([] ++ [mkState "B" "BB" ["A"; "C"]]) ∧
    seen_objs σ' !! 0%nat
    = Some (if 2 =? 0 then visited [] else visited ([] ++ [mkState "B" "BB" ["A"; "C"]])).
Proof.
  destruct (traverse_neighbor_chain line_graph 3 (mkState "B" "BB" ["A"; "C"]) 0 0 0 2
              (mkStore [[]] [∅] [[]]))
    as [[[] σ']|e] eqn:Hrun; [| exfalso; vm_compute in Hrun; discriminate].
  exists σ'. split; [reflexivity |]. split; [reflexivity |]. split; [done |].
  apply (the_copies_protect_the_callers_objects line_graph 3 (mkState "B" "BB" ["A"; "C"])
           0 0 0 2 (mkStore [[]] [∅] [[]]) σ' [] eq_refl eq_refl Hrun).
Defined.
